(** * url-search: a shallow embedding of [src/src/url-search.ts]

    The class [URLSearch] keeps its parameters in a plain JavaScript
    object ([secret]) whose values are arrays of strings.  The embedding
    has three layers:

    - [JS]: the parts of the language the class relies on: strings as
      sequences of UTF-16 code units, [split], [join], [replace],
      [decodeURIComponent], [encodeURIComponent], the default ordering of
      [Array.prototype.sort], the enumeration order of the properties of
      an ordinary object and what such an object inherits from its
      prototype;
    - [URLSearch]: the class itself, method by method;
    - the properties of the class. *)

From Stdlib Require Import List NArith ZArith Lia Bool Ascii String.
From Stdlib Require Import DecimalString.
From Stdlib Require Import Sorting.Sorted Sorting.Permutation.
Import ListNotations.
Open Scope N_scope.
Open Scope list_scope.

(** ** The JavaScript substrate *)
Module JS.

(** A string is its sequence of UTF-16 code units. *)
Definition jsstring := list N.

(** String literals of the source, written in ASCII. *)
Definition js (s : string) : jsstring :=
  map N_of_ascii (list_ascii_of_string s).

Fixpoint eqb_str (a b : jsstring) : bool :=
  match a, b with
  | [], [] => true
  | x :: a', y :: b' => (x =? y) && eqb_str a' b'
  | _, _ => false
  end.

(** Errors the class can let escape. *)
Inductive jserror := URIError | TypeError.

(** The completion of a call: a normal result or a thrown exception. *)
Inductive completion (A : Type) :=
| Normal (a : A)
| Throw (e : jserror).
Arguments Normal {A} a.
Arguments Throw {A} e.

Definition bind {A B} (m : completion A) (k : A -> completion B) : completion B :=
  match m with
  | Normal a => k a
  | Throw e => Throw e
  end.

Definition of_option {A} (e : jserror) (o : option A) : completion A :=
  match o with
  | Some a => Normal a
  | None => Throw e
  end.

(** *** Code points of the characters the source names *)
Definition ch_percent : N := 37.   (* % *)
Definition ch_plus : N := 43.      (* + *)
Definition ch_amp : N := 38.       (* & *)
Definition ch_eq : N := 61.        (* = *)
Definition ch_question : N := 63.  (* ? *)
Definition ch_space : N := 32.

Definition in_range (lo hi c : N) : bool := (lo <=? c) && (c <=? hi).

(** *** [String.prototype.split] with a one-character separator.
    The result is never empty: [''.split('&')] is [['']]. *)
Fixpoint split (sep : N) (s : jsstring) : list jsstring :=
  match s with
  | [] => [[]]
  | c :: rest =>
      if c =? sep then [] :: split sep rest
      else match split sep rest with
           | [] => [[c]]
           | w :: ws => (c :: w) :: ws
           end
  end.

(** *** [Array.prototype.join] *)
Fixpoint join (sep : jsstring) (l : list jsstring) : jsstring :=
  match l with
  | [] => []
  | x :: l' =>
      match l' with
      | [] => x
      | _ :: _ => x ++ sep ++ join sep l'
      end
  end.

(** *** Hexadecimal digits *)
Definition hexval (c : N) : option N :=
  if in_range 48 57 c then Some (c - 48)
  else if in_range 65 70 c then Some (c - 55)
  else if in_range 97 102 c then Some (c - 87)
  else None.

(** Upper-case digit, as [encodeURIComponent] writes it. *)
Definition hexdigit (n : N) : N := if n <? 10 then 48 + n else 55 + n.

(** *** [decodeURIComponent]

    ECMAScript's [Decode] with an empty reserved set, in two passes with
    the same outcome as the one-pass text of the standard: every [%] must
    start an escape [%XX]; the octets so obtained must form well-formed
    UTF-8 (no overlong forms, no surrogates, nothing above U+10FFFF);
    every other code unit is copied.  Any violation is a [URIError],
    rendered by [None]. *)
Inductive token := Lit (c : N) | Oct (b : N).

Fixpoint unescape (s : jsstring) : option (list token) :=
  match s with
  | [] => Some []
  | c :: rest =>
      if c =? ch_percent then
        match rest with
        | h :: l :: rest' =>
            match hexval h, hexval l with
            | Some x, Some y => option_map (cons (Oct (16 * x + y))) (unescape rest')
            | _, _ => None
            end
        | _ => None
        end
      else option_map (cons (Lit c)) (unescape rest)
  end.

(** The six payload bits of a continuation octet [10xxxxxx]. *)
Definition continuation (t : token) : option N :=
  match t with
  | Oct b => if in_range 128 191 b then Some (b - 128) else None
  | Lit _ => None
  end.

(** A code point as one code unit or as a surrogate pair. *)
Definition code_units (v : N) : jsstring :=
  if v <? 65536 then [v]
  else [55296 + (v - 65536) / 1024; 56320 + (v - 65536) mod 1024].

Definition is_surrogate (v : N) : bool := in_range 55296 57343 v.

Fixpoint utf8_decode (ts : list token) : option jsstring :=
  match ts with
  | [] => Some []
  | Lit c :: ts' => option_map (cons c) (utf8_decode ts')
  | Oct b :: ts' =>
      if b <? 128 then option_map (cons b) (utf8_decode ts')
      else if b <? 192 then None
      else if b <? 224 then
        match ts' with
        | t1 :: ts2 =>
            match continuation t1 with
            | Some x1 =>
                let v := (b - 192) * 64 + x1 in
                if v <? 128 then None
                else option_map (app (code_units v)) (utf8_decode ts2)
            | None => None
            end
        | _ => None
        end
      else if b <? 240 then
        match ts' with
        | t1 :: t2 :: ts3 =>
            match continuation t1, continuation t2 with
            | Some x1, Some x2 =>
                let v := (b - 224) * 4096 + x1 * 64 + x2 in
                if (v <? 2048) || is_surrogate v then None
                else option_map (app (code_units v)) (utf8_decode ts3)
            | _, _ => None
            end
        | _ => None
        end
      else if b <? 248 then
        match ts' with
        | t1 :: t2 :: t3 :: ts4 =>
            match continuation t1, continuation t2, continuation t3 with
            | Some x1, Some x2, Some x3 =>
                let v := (b - 240) * 262144 + x1 * 4096 + x2 * 64 + x3 in
                if (v <? 65536) || (1114111 <? v) then None
                else option_map (app (code_units v)) (utf8_decode ts4)
            | _, _, _ => None
            end
        | _ => None
        end
      else None
  end.

Definition decodeURIComponent (s : jsstring) : option jsstring :=
  match unescape s with
  | Some ts => utf8_decode ts
  | None => None
  end.

(** *** [encodeURIComponent]

    ECMAScript's [Encode] with the unreserved set
    [A-Z a-z 0-9 - _ . ! ~ * ' ( )].  A lone surrogate is a [URIError]. *)
Definition alnum (c : N) : bool :=
  in_range 48 57 c || in_range 65 90 c || in_range 97 122 c.

(** [- _ . ! ~ * ' ( )] *)
Definition uri_mark (c : N) : bool :=
  existsb (N.eqb c) [45; 95; 46; 33; 126; 42; 39; 40; 41].

Definition uri_unescaped (c : N) : bool := alnum c || uri_mark c.

Definition utf8_encode (v : N) : list N :=
  if v <? 128 then [v]
  else if v <? 2048 then [192 + v / 64; 128 + v mod 64]
  else if v <? 65536 then
    [224 + v / 4096; 128 + (v / 64) mod 64; 128 + v mod 64]
  else
    [240 + v / 262144; 128 + (v / 4096) mod 64;
     128 + (v / 64) mod 64; 128 + v mod 64].

Definition escape_octet (b : N) : jsstring :=
  [ch_percent; hexdigit (b / 16); hexdigit (b mod 16)].

Definition escape (v : N) : jsstring := flat_map escape_octet (utf8_encode v).

Fixpoint encodeURIComponent (s : jsstring) : option jsstring :=
  match s with
  | [] => Some []
  | c :: rest =>
      if uri_unescaped c then option_map (cons c) (encodeURIComponent rest)
      else if in_range 56320 57343 c then None
      else if in_range 55296 56319 c then
        match rest with
        | d :: rest' =>
            if in_range 56320 57343 d then
              option_map (app (escape ((c - 55296) * 1024 + (d - 56320) + 65536)))
                         (encodeURIComponent rest')
            else None
        | [] => None
        end
      else option_map (app (escape c)) (encodeURIComponent rest)
  end.

(** *** The default order of [Array.prototype.sort] on strings:
    lexicographic on code units. *)
Fixpoint leb_str (a b : jsstring) : bool :=
  match a, b with
  | [], _ => true
  | _ :: _, [] => false
  | x :: a', y :: b' =>
      if x <? y then true else if y <? x then false else leb_str a' b'
  end.

Section Sort.
Context {A : Type} (leb : A -> A -> bool).

Fixpoint insert (x : A) (l : list A) : list A :=
  match l with
  | [] => [x]
  | y :: l' => if leb x y then x :: l else y :: insert x l'
  end.

(** Any sorting algorithm agrees with this one on a total order; the
    engine's choice cannot be observed on strings. *)
Fixpoint sort_by (l : list A) : list A :=
  match l with
  | [] => []
  | x :: l' => insert x (sort_by l')
  end.
End Sort.

Definition array_sort (l : list jsstring) : list jsstring := sort_by leb_str l.

(** *** Ordinary objects used as maps *)

(** An array index is the canonical decimal form of an integer in
    [0, 2^32 - 2]. *)
Definition is_digit (c : N) : bool := in_range 48 57 c.

Definition decimal (s : jsstring) : N :=
  fold_left (fun acc c => 10 * acc + (c - 48)) s 0.

Definition array_index (s : jsstring) : option N :=
  match s with
  | [] => None
  | c :: rest =>
      if forallb is_digit s
         && (negb (c =? 48) || match rest with [] => true | _ => false end)
         && (decimal s <? 4294967295)
      then Some (decimal s) else None
  end.

Definition is_index (s : jsstring) : bool :=
  match array_index s with Some _ => true | None => false end.

(** The own properties of an object whose values are arrays of strings,
    in the order of their creation.  Keys are pairwise distinct. *)
Definition props := list (jsstring * list jsstring).

(** The own property [name], if any. *)
Fixpoint own (name : jsstring) (o : props) : option (list jsstring) :=
  match o with
  | [] => None
  | (k, v) :: o' => if eqb_str k name then Some v else own name o'
  end.

(** An own property is written: an existing one keeps its place, a new
    one is created last. *)
Fixpoint put (name : jsstring) (v : list jsstring) (o : props) : props :=
  match o with
  | [] => [(name, v)]
  | (k, w) :: o' =>
      if eqb_str k name then (k, v) :: o' else (k, w) :: put name v o'
  end.

(** [delete o[name]] *)
Definition remove (name : jsstring) (o : props) : props :=
  filter (fun kv => negb (eqb_str (fst kv) name)) o.

(** Enumeration of the own properties: first the array indices in
    ascending numeric order, then the other names in order of
    creation. *)
Definition index_entries (o : props) : list (N * (jsstring * list jsstring)) :=
  flat_map (fun kv => match array_index (fst kv) with
                      | Some i => [(i, kv)]
                      | None => []
                      end) o.

Definition leb_fst {B} (a b : N * B) : bool := fst a <=? fst b.

Definition own_enum (o : props) : props :=
  map snd (sort_by leb_fst (index_entries o))
  ++ filter (fun kv => negb (is_index (fst kv))) o.

(** *** Prototypes

    An object literal has [Object.prototype] for its prototype.  The
    assignment [o.__proto__ = a] of an array [a] runs the setter that
    [Object.prototype] keeps under that name and makes [a] the prototype
    of [o]; the array itself inherits from [Array.prototype] and, through
    it, from [Object.prototype]. *)
Inductive prototype :=
| ObjectPrototype
| ArrayInstance (elements : list jsstring).

Definition proto_name : jsstring := js "__proto__".

(** The members of [Object.prototype]; none of them is enumerable, none
    is an array. *)
Definition Object_prototype : list jsstring :=
  map js ["constructor"; "hasOwnProperty"; "isPrototypeOf";
          "propertyIsEnumerable"; "toLocaleString"; "toString"; "valueOf";
          "__proto__"; "__defineGetter__"; "__defineSetter__";
          "__lookupGetter__"; "__lookupSetter__"]%string.

(** The members of [Array.prototype] (ECMAScript 2023), all of them
    functions and none enumerable. *)
Definition Array_prototype : list jsstring :=
  map js ["at"; "concat"; "constructor"; "copyWithin"; "entries"; "every";
          "fill"; "filter"; "find"; "findIndex"; "findLast";
          "findLastIndex"; "flat"; "flatMap"; "forEach"; "includes";
          "indexOf"; "join"; "keys"; "lastIndexOf"; "map"; "pop"; "push";
          "reduce"; "reduceRight"; "reverse"; "shift"; "slice"; "some";
          "sort"; "splice"; "toLocaleString"; "toReversed"; "toSorted";
          "toSpliced"; "toString"; "unshift"; "values"; "with"]%string.

Definition inherited (name : jsstring) : bool :=
  existsb (eqb_str name) Object_prototype.

(** What [o[name]] evaluates to, for an object [o] given by its own
    properties and its prototype: nothing ([undefined]); an own array;
    the prototype array itself, under [__proto__]; one of its elements, a
    string; its length, a number; or a member of [Array.prototype] or
    [Object.prototype]: a function, or [Object.prototype] itself under
    [__proto__]. *)
Inductive member :=
| Absent
| OwnArray (vs : list jsstring)
| PrototypeArray (vs : list jsstring)
| Element (s : jsstring)
| Length (n : N)
| Builtin.

Definition lookup (name : jsstring) (o : props) (p : prototype) : member :=
  match own name o with
  | Some vs => OwnArray vs
  | None =>
      match p with
      | ObjectPrototype => if inherited name then Builtin else Absent
      | ArrayInstance l =>
          match array_index name with
          | Some i =>
              match nth_error l (N.to_nat i) with
              | Some s => Element s
              | None => Absent
              end
          | None =>
              if eqb_str name (js "length") then Length (N.of_nat (List.length l))
              else if eqb_str name proto_name then PrototypeArray l
              else if existsb (eqb_str name) Array_prototype || inherited name
                   then Builtin
                   else Absent
          end
      end
  end.

(** [name in o] *)
Definition has_property (name : jsstring) (o : props) (p : prototype) : bool :=
  match lookup name o p with
  | Absent => false
  | _ => true
  end.

(** The names a prototype brings. *)
Definition inherits (p : prototype) (name : jsstring) : bool :=
  has_property name [] p.

(** [!o[name]]: [undefined], the empty string and zero are falsy. *)
Definition falsy_member (m : member) : bool :=
  match m with
  | Absent => true
  | Element [] => true
  | Length 0 => true
  | _ => false
  end.

(** [o[name] = v] for an array [v]: an own property is written; a new
    one is created, every inherited member being writable, unless the
    name is [__proto__], whose setter replaces the prototype. *)
Definition assign (name : jsstring) (v : list jsstring) (o : props) (p : prototype)
  : props * prototype :=
  match own name o with
  | Some _ => (put name v o, p)
  | None => if eqb_str name proto_name then (o, ArrayInstance v)
            else (put name v o, p)
  end.

(** [o.hasOwnProperty(name)]: the method is found on [Object.prototype],
    where every prototype chain ends, unless an own property called
    [hasOwnProperty] hides it; that property is an array, and the call
    fails. *)
Definition hasOwnProperty (o : props) (name : jsstring) : completion bool :=
  match own (js "hasOwnProperty") o with
  | Some _ => Throw TypeError
  | None => Normal (match own name o with Some _ => true | None => false end)
  end.

Fixpoint foldM {A B} (f : A -> B -> completion A) (l : list B) (a : A) : completion A :=
  match l with
  | [] => Normal a
  | x :: l' => bind (f a x) (foldM f l')
  end.

(** The decimal form of an array index. *)
Definition index_name (i : nat) : jsstring :=
  js (NilZero.string_of_uint (Nat.to_uint i)).

(** The enumerable names [for ... in] finds on the prototype after the
    own ones: the indices of a prototype array that no own property
    hides. *)
Definition inherited_enum (o : props) (p : prototype) : list jsstring :=
  match p with
  | ObjectPrototype => []
  | ArrayInstance l =>
      filter (fun name => match own name o with Some _ => false | None => true end)
             (map index_name (seq 0 (List.length l)))
  end.

(** The loop [for (name in o) if (o.hasOwnProperty(name)) body]: the own
    properties first, array indices in ascending numeric order and then
    the other names in order of creation; then the inherited names, for
    which [hasOwnProperty] is called and answers false. *)
Definition for_in_own {A} (o : props) (p : prototype)
    (body : A -> jsstring -> list jsstring -> completion A) (a : A) : completion A :=
  bind (foldM (fun a kv => bind (hasOwnProperty o (fst kv))
                                (fun b => if b then body a (fst kv) (snd kv)
                                          else Normal a))
              (own_enum o) a)
       (foldM (fun a name => bind (hasOwnProperty o name) (fun _ => Normal a))
              (inherited_enum o p)).

End JS.

(** ** The class *)
Module URLSearch.
Import JS.

(** [private secret: { [key: string]: string[] } = {}]: the object, by
    its own properties and its prototype. *)
Record URLSearch := mk { secret : props; secret_prototype : prototype }.

Definition empty : URLSearch := mk [] ObjectPrototype.

(** [this.secret[name]] *)
Definition secret_at (name : jsstring) (this : URLSearch) : member :=
  lookup name (secret this) (secret_prototype this).

(** [this.secret[name] = v] *)
Definition secret_assign (name : jsstring) (v : list jsstring) (this : URLSearch)
  : URLSearch :=
  let (o, p) := assign name v (secret this) (secret_prototype this) in mk o p.

(** The second parameter of [append]: [string | string[]], or absent. *)
Inductive Values :=
| Undefined
| Str (s : jsstring)
| Arr (l : list jsstring).

(** [!values]: absent and the empty string are falsy, every array is
    truthy. *)
Definition falsy (values : Values) : bool :=
  match values with
  | Undefined => true
  | Str [] => true
  | Str (_ :: _) => false
  | Arr _ => false
  end.

Definition is_empty (s : jsstring) : bool :=
  match s with [] => true | _ :: _ => false end.

(** What a call of [append] returns: [this] from the guard, nothing
    when it falls off the end of the body. *)
Inductive Returned := ReturnsThis | ReturnsUndefined.

(** [decodeURIComponent((val + '').replace(/\+/g, ''))] *)
Definition remove_plus (val : jsstring) : jsstring :=
  filter (fun c => negb (c =? ch_plus)) val.

Definition decode_value (val : jsstring) : option jsstring :=
  decodeURIComponent (remove_plus val).

(** [for (const val of vals) this.secret[name].push(decode(val))].
    The argument is evaluated before the call, so a malformed value
    raises [URIError] first; [push] is missing when [secret[name]] is
    not an array but a string, a number or a function. *)
Fixpoint push_all (name : jsstring) (vals : list jsstring) (this : URLSearch)
  : URLSearch * completion Returned :=
  match vals with
  | [] => (this, Normal ReturnsUndefined)
  | val :: vals' =>
      match secret_at name this with
      | Absent => (this, Throw TypeError)
      | target =>
          match decode_value val with
          | None => (this, Throw URIError)
          | Some d =>
              match target with
              | OwnArray arr =>
                  push_all name vals'
                    (mk (put name (arr ++ [d]) (secret this)) (secret_prototype this))
              | PrototypeArray arr =>
                  push_all name vals' (mk (secret this) (ArrayInstance (arr ++ [d])))
              | _ => (this, Throw TypeError)
              end
          end
      end
  end.

(** [const vals = typeof values === 'string' ? [values] : values] *)
Definition as_array (values : Values) : list jsstring :=
  match values with
  | Str s => [s]
  | Arr l => l
  | Undefined => []
  end.

(** [append(name, values)]: the store after the call and its completion. *)
Definition append (name : jsstring) (values : Values) (this : URLSearch)
  : URLSearch * completion Returned :=
  if is_empty name || falsy values then (this, Normal ReturnsThis)
  else
    push_all name (as_array values)
      (if falsy_member (secret_at name this) then secret_assign name [] this
       else this).

(** [delete(name)]: an own property is deleted, an inherited one stays. *)
Definition delete (name : jsstring) (this : URLSearch) : URLSearch :=
  mk (remove name (secret this)) (secret_prototype this).

(** [name in this.secret] *)
Definition has (name : jsstring) (this : URLSearch) : bool :=
  has_property name (secret this) (secret_prototype this).

(** What [get] can return. *)
Inductive value := Null | Undef | StringValue (s : jsstring).

(** [name in this.secret ? this.secret[name][0] : null]: the first
    element of an array, the first character of a string, [undefined]
    when there is none and for a number or a function. *)
Definition get (name : jsstring) (this : URLSearch) : value :=
  if has name this then
    match secret_at name this with
    | OwnArray (v :: _) => StringValue v
    | PrototypeArray (v :: _) => StringValue v
    | Element (c :: _) => StringValue [c]
    | _ => Undef
    end
  else Null.

(** [name in this.secret ? this.secret[name].slice(0) : []]: a copy of
    an array, a string as it is; a number or a function has no
    [slice]. *)
Definition getAll (name : jsstring) (this : URLSearch) : completion Values :=
  if has name this then
    match secret_at name this with
    | OwnArray vs => Normal (Arr vs)
    | PrototypeArray vs => Normal (Arr vs)
    | Element s => Normal (Str s)
    | _ => Throw TypeError
    end
  else Normal (Arr []).

(** The values [set] is given, and ['' + value]. *)
Inductive primitive :=
| PUndefined
| PNull
| PBool (b : bool)
| PString (s : jsstring).

Definition ToString (p : primitive) : jsstring :=
  match p with
  | PUndefined => js "undefined"
  | PNull => js "null"
  | PBool true => js "true"
  | PBool false => js "false"
  | PString s => s
  end.

(** [this.secret[name] = ['' + value]] *)
Definition set (name : jsstring) (value : primitive) (this : URLSearch) : URLSearch :=
  secret_assign name [ToString value] this.

(** [forEach(callback)]: the callback updates what its closure
    captured, here the accumulator [a]. *)
Definition forEach {A} (callback : option (A -> jsstring -> jsstring -> completion A))
    (a : A) (this : URLSearch) : completion A :=
  for_in_own (secret this) (secret_prototype this)
    (fun a name values =>
       foldM (fun a v => match callback with
                         | Some f => f a v name
                         | None => Normal a
                         end) values a) a.

(** [keys()] *)
Definition keys (this : URLSearch) : completion (list jsstring) :=
  for_in_own (secret this) (secret_prototype this)
    (fun names name _ => Normal (names ++ [name])) [].

(** [values()] *)
Definition values (this : URLSearch) : completion (list jsstring) :=
  forEach (Some (fun vs value _ => Normal (vs ++ [value]))) [] this.

(** [entries()] *)
Definition entries (this : URLSearch) : completion (list (jsstring * jsstring)) :=
  forEach (Some (fun it value name => Normal (it ++ [(name, value)]))) [] this.

(** The replacement function of [encodeURI]: the table [replacePairs]
    applied to each match of [/[!'\(\)~]|%20|%00/g], left to right. *)
Definition replacePairs : list (jsstring * jsstring) :=
  [(js "!", js "%21"); (js "'", js "%27"); (js "(", js "%28");
   (js ")", js "%29"); (js "~", js "%7E"); (js "%20", js "+");
   (js "%00", [0])].

Definition replacement (m : jsstring) : option jsstring :=
  option_map snd (find (fun p => eqb_str (fst p) m) replacePairs).

Fixpoint replace_matches (s : jsstring) : jsstring :=
  match s with
  | [] => []
  | c :: rest =>
      match replacement [c] with
      | Some r => r ++ replace_matches rest
      | None =>
          match rest with
          | d1 :: d2 :: rest' =>
              match replacement [c; d1; d2] with
              | Some r => r ++ replace_matches rest'
              | None => c :: replace_matches rest
              end
          | _ => c :: replace_matches rest
          end
      end
  end.

(** [encodeURI(str)] *)
Definition encodeURI (str : jsstring) : completion jsstring :=
  of_option URIError (option_map replace_matches (encodeURIComponent str)).

(** [toString()] *)
Definition toString (this : URLSearch) : completion jsstring :=
  bind (forEach (Some (fun query value name =>
                         bind (encodeURI name) (fun n =>
                         bind (encodeURI value) (fun v =>
                         Normal (query ++ [n ++ js "=" ++ v])))))
                [] this)
       (fun query => Normal (join (js "&") query)).

(** [sort()]: [temp] starts as the empty object literal and becomes
    the store. *)
Definition sort (this : URLSearch) : completion URLSearch :=
  bind (keys this) (fun ks =>
    let keys := array_sort ks in
    Normal (fold_left
              (fun temp key =>
                 secret_assign key (array_sort (match own key (secret this) with
                                                | Some vs => vs
                                                | None => []
                                                end)) temp)
              keys empty)).

(** The argument of the constructor, by the tag
    [{}.toString.call(query).slice(8, -1).toLowerCase()].  An array is
    given by its elements [[name, value]], an object by its own
    enumerable properties in enumeration order; it inherits from
    [Object.prototype]. *)
Inductive Query :=
| QString (s : jsstring)
| QArray (l : list (jsstring * Values))
| QObject (l : list (jsstring * Values))
| QOther.

Fixpoint append_each (l : list (jsstring * Values)) (this : URLSearch)
  : completion URLSearch :=
  match l with
  | [] => Normal this
  | (name, values) :: l' =>
      match append name values this with
      | (this', Normal _) => append_each l' this'
      | (_, Throw e) => Throw e
      end
  end.

(** [query.hasOwnProperty(key)]: no value of a property is a function
    here, so the call fails when an own property called [hasOwnProperty]
    hides the method. *)
Definition query_hasOwnProperty (query : list (jsstring * Values)) (key : jsstring)
  : completion bool :=
  if existsb (fun p => eqb_str (fst p) (js "hasOwnProperty")) query
  then Throw TypeError
  else Normal (existsb (fun p => eqb_str (fst p) key) query).

(** [for (const key in query) if (query.hasOwnProperty(key))
    this.append(key, query[key])] *)
Fixpoint append_own (query l : list (jsstring * Values)) (this : URLSearch)
  : completion URLSearch :=
  match l with
  | [] => Normal this
  | (key, values) :: l' =>
      bind (query_hasOwnProperty query key) (fun b =>
        if b then
          match append key values this with
          | (this', Normal _) => append_own query l' this'
          | (_, Throw e) => Throw e
          end
        else append_own query l' this)
  end.

(** [split[0]] and [split[1] || ''] of [pair.split('=')] *)
Definition pair_of (pair : jsstring) : jsstring * Values :=
  let split := JS.split ch_eq pair in
  (nth 0 split [], Str (nth 1 split [])).

Definition strip_question (query : jsstring) : jsstring :=
  match query with
  | c :: rest => if c =? ch_question then rest else query
  | [] => query
  end.

Definition constructor (query : Query) : completion URLSearch :=
  match query with
  | QString q =>
      append_each (map pair_of (JS.split ch_amp (strip_question q))) empty
  | QArray l => append_each l empty
  | QObject l => append_own l l empty
  | QOther => Normal empty
  end.

End URLSearch.

(** ** Notions used to state the properties *)
Module Spec.
Import JS URLSearch.

(** *** Decoding and parsing *)

(** The decode rule as the documentation of the format has it
    ([application/x-www-form-urlencoded]): every [+] becomes a space,
    then the percent-escapes are decoded. *)
Definition plus_to_space (val : jsstring) : jsstring :=
  map (fun c => if c =? ch_plus then ch_space else c) val.

Definition form_decode (val : jsstring) : option jsstring :=
  decodeURIComponent (plus_to_space val).

(** The constructor applied to a string literal. *)
Definition parse (q : string) : completion URLSearch :=
  constructor (QString (js q)).

(** *** Orders and enumeration *)

(** The order of [sort] on strings. *)
Definition lex_le (a b : jsstring) : Prop := leb_str a b = true.

(** The store has no own property that shadows [hasOwnProperty]. *)
Definition enumerable (o : props) : Prop := own (js "hasOwnProperty") o = None.

(** The store has no own property called [__proto__]: no method of the
    class creates one, since assigning to that name replaces the
    prototype; [sort] copies every name by assignment. *)
Definition assignable (o : props) : Prop := own proto_name o = None.

(** The pairs [forEach] visits: name-major over the enumeration. *)
Definition visited (o : props) : list (jsstring * jsstring) :=
  flat_map (fun kv => map (pair (fst kv)) (snd kv)) (own_enum o).


Definition not_index (n : jsstring) : bool := negb (is_index n).

(** The two halves of an enumeration. *)
Definition index_names (o : props) : list jsstring :=
  map fst (map snd (sort_by leb_fst (index_entries o))).

Definition other_names (o : props) : list jsstring :=
  filter not_index (map fst o).

(** *** Histories of calls and the first-seen order of names *)

(** The calls that change a collection. *)
Inductive call :=
| CallAppend (name : jsstring) (values : Values)
| CallSet (name : jsstring) (value : primitive)
| CallDelete (name : jsstring).

(** [set] creates a property for every name but [__proto__]. *)
Definition call_ok (c : call) : Prop :=
  match c with
  | CallSet name _ => name <> proto_name
  | _ => True
  end.

Definition perform (c : call) (this : URLSearch) : completion URLSearch :=
  match c with
  | CallAppend name values =>
      match append name values this with
      | (this', Normal _) => Normal this'
      | (_, Throw e) => Throw e
      end
  | CallSet name value => Normal (set name value this)
  | CallDelete name => Normal (delete name this)
  end.

Definition perform_all (cs : list call) (this : URLSearch) : completion URLSearch :=
  foldM (fun this c => perform c this) cs this.

(** The appends the constructor makes. *)
Definition constructor_calls (query : Query) : list call :=
  map (fun p => CallAppend (fst p) (snd p))
      match query with
      | QString q => map pair_of (JS.split ch_amp (strip_question q))
      | QArray l => l
      | QObject l => l
      | QOther => []
      end.

(** The names a history leaves, in the order in which each was first
    seen: a call of [append] that gets past its guard, or of [set],
    shows its name; [delete] forgets it.  A member of [Object.prototype]
    is never shown by [append]. *)
Definition seen (n : jsstring) (names : list jsstring) : bool :=
  existsb (eqb_str n) names.

Definition see (n : jsstring) (names : list jsstring) : list jsstring :=
  if seen n names then names else names ++ [n].

Definition forget (n : jsstring) (names : list jsstring) : list jsstring :=
  filter (fun k => negb (eqb_str k n)) names.

Definition first_seen_step (names : list jsstring) (c : call) : list jsstring :=
  match c with
  | CallAppend n values =>
      if is_empty n || falsy values || (inherited n && negb (seen n names))
      then names else see n names
  | CallSet n _ => see n names
  | CallDelete n => forget n names
  end.


(** Array indices among [names], in ascending numeric order. *)
Definition index_order (names : list jsstring) : list jsstring :=
  map snd (sort_by leb_fst
             (flat_map (fun n => match array_index n with
                                 | Some i => [(i, n)]
                                 | None => []
                                 end) names)).

(** The order in which an object enumerates [names]. *)
Definition enumeration_order (names : list jsstring) : list jsstring :=
  index_order names ++ filter not_index names.

(** The values stored under a name. *)
Definition stored (n : jsstring) (this : URLSearch) : list jsstring :=
  match own n (secret this) with
  | Some vs => vs
  | None => []
  end.

(** *** Completion *)

(** A name outside [Object.prototype], and a value that decodes. *)
Definition plain (name : jsstring) : Prop := inherited name = false.




Definition constructor_pairs (query : Query) : list (jsstring * Values) :=
  match query with
  | QString q => map pair_of (JS.split ch_amp (strip_question q))
  | QArray l => l
  | QObject l => l
  | QOther => []
  end.

Definition completes {A} (m : completion A) : Prop := exists a, m = Normal a.



(** *** The encode transform, pass by pass

    The transform as the documentation words it: percent-encode, then
    re-encode each of [! ' ( ) ~], then replace every [%20] by [+], then
    every [%00] by the NUL character. *)
Definition reencode (c : N) : jsstring :=
  if c =? 33 then js "%21"
  else if c =? 39 then js "%27"
  else if c =? 40 then js "%28"
  else if c =? 41 then js "%29"
  else if c =? 126 then js "%7E"
  else [c].

(** Every occurrence of the three characters [a b c], left to right,
    replaced by [r]. *)
Fixpoint replace_triple (a b c : N) (r : jsstring) (s : jsstring) : jsstring :=
  match s with
  | [] => []
  | x :: rest =>
      match rest with
      | y :: z :: rest' =>
          if (x =? a) && (y =? b) && (z =? c)
          then r ++ replace_triple a b c r rest'
          else x :: replace_triple a b c r rest
      | _ => x :: replace_triple a b c r rest
      end
  end.

Definition encode_passes (e : jsstring) : jsstring :=
  replace_triple 37 48 48 [0] (replace_triple 37 50 48 [43] (flat_map reencode e)).

Definition encode_transform (str : jsstring) : completion jsstring :=
  of_option URIError (option_map encode_passes (encodeURIComponent str)).

(** [toString] as the documentation words it: the segments
    [name=value] of the pairs of [entries], joined by [&]. *)
Fixpoint mapM {A B} (f : A -> completion B) (l : list A) : completion (list B) :=
  match l with
  | [] => Normal []
  | x :: l' => bind (f x) (fun y => bind (mapM f l') (fun ys => Normal (y :: ys)))
  end.

Definition segment (nv : jsstring * jsstring) : completion jsstring :=
  bind (encode_transform (fst nv)) (fun n =>
  bind (encode_transform (snd nv)) (fun v =>
  Normal (n ++ js "=" ++ v))).

Definition joined_segments (this : URLSearch) : completion jsstring :=
  bind (entries this) (fun es =>
  bind (mapM segment es) (fun segs => Normal (join (js "&") segs))).

(** A string of 16-bit code units. *)
Definition code_unit (c : N) : Prop := c < 65536.
Definition well_formed (s : jsstring) : Prop := Forall code_unit s.

(** What [encodeURIComponent] writes: characters other than [%], and
    escapes [%XX] in upper-case hexadecimal. *)
Definition hexchar (h : N) : bool := in_range 48 57 h || in_range 65 70 h.

Inductive escaped : jsstring -> Prop :=
| escaped_nil : escaped []
| escaped_char c s : c <> ch_percent -> escaped s -> escaped (c :: s)
| escaped_octet h1 h2 s :
    hexchar h1 = true -> hexchar h2 = true -> escaped s ->
    escaped (ch_percent :: h1 :: h2 :: s).

(** Every name and value of the store is a string of 16-bit units. *)
Definition well_formed_store (o : props) : Prop :=
  Forall (fun kv => well_formed (fst kv) /\ Forall well_formed (snd kv)) o.

(** *** Reading back what the encode transform wrote *)

(** What the transform makes of one escaped octet. *)
Definition transformed_octet (b : N) : jsstring :=
  if b =? 32 then [43] else if b =? 0 then [0] else escape_octet b.

(** The token [unescape] reads back from it. *)
Definition octet_token (b : N) : token := if b =? 0 then Lit 0 else Oct b.

(** A Unicode scalar value: a code point that is not a surrogate. *)
Definition scalar (v : N) : Prop := v < 1114112 /\ (v < 55296 \/ 57343 < v).

(** A character that is neither [&] nor [=]. *)
Definition safe (c : N) : Prop := c <> ch_amp /\ c <> ch_eq.

(** [t], as written by the encode transform, reads back as [s] through
    the decode rule of [append], keeps clear of the separators, and is
    empty only if [s] is. *)
Definition decodes_to (t s : jsstring) : Prop :=
  (exists ts, unescape (remove_plus t) = Some ts /\ utf8_decode ts = Some s)
  /\ Forall safe t
  /\ (s <> [] -> t <> []).

(** *** Collections that survive [toString] and the constructor *)

(** The characters the encode transform leaves as they are:
    letters, digits and [- _ . *]. *)
Definition stable_char (c : N) : bool :=
  alnum c || (c =? 45) || (c =? 95) || (c =? 46) || (c =? 42).

Definition stable_name (n : jsstring) : bool := forallb stable_char n.

(** The store after one value was pushed under a name. *)
Definition add_value (o : props) (nv : jsstring * jsstring) : props :=
  put (fst nv) (match own (fst nv) o with Some vs => vs | None => [] end ++ [snd nv]) o.

(** The pairs of a list of properties, name-major. *)
Definition pairs_of (l : props) : list (jsstring * jsstring) :=
  flat_map (fun kv => map (pair (fst kv)) (snd kv)) l.

Definition has_values (kv : jsstring * list jsstring) : bool :=
  negb (match snd kv with [] => true | _ => false end).

(** [encodeURIComponent] accepts the string: no lone surrogate. *)
Definition encodable (v : jsstring) : bool :=
  match encodeURIComponent v with Some _ => true | None => false end.

(** A value that survives [toString] and the constructor: not empty,
    made of 16-bit code units other than the space, without lone
    surrogates. *)
Definition portable_value (v : jsstring) : bool :=
  negb (is_empty v)
  && forallb (fun c => (c <? 65536) && negb (c =? ch_space)) v
  && encodable v.

Definition round_trips (kv : jsstring * list jsstring) : bool :=
  stable_name (fst kv) && forallb portable_value (snd kv).

(** What [encodeURI] writes. *)
Definition encoded (v : jsstring) : jsstring :=
  match encodeURIComponent v with
  | Some e => replace_matches e
  | None => []
  end.

Definition segment_of (nv : jsstring * jsstring) : jsstring :=
  fst nv ++ js "=" ++ encoded (snd nv).

(** *** Values, name by name *)

(** The values of a sequence, decoded as [append] decodes them; [None]
    when one of them is malformed. *)
Fixpoint decode_all (vals : list jsstring) : option (list jsstring) :=
  match vals with
  | [] => Some []
  | v :: vals' =>
      match decode_value v, decode_all vals' with
      | Some d, Some ds => Some (d :: ds)
      | _, _ => None
      end
  end.

(** Those that decode, in order. *)
Definition decoded (vals : list jsstring) : list jsstring :=
  flat_map (fun v => match decode_value v with
                     | Some d => [d]
                     | None => []
                     end) vals.

(** What the pairs given to a constructor contribute to the name [n]:
    the decoded values of the pairs of that name that get past the
    guard of [append], in the order of the pairs. *)
Definition collected (n : jsstring) (pairs : list (jsstring * Values)) : list jsstring :=
  flat_map (fun p => if eqb_str (fst p) n
                        && negb (is_empty (fst p) || falsy (snd p))
                     then decoded (as_array (snd p)) else []) pairs.


(** A string with its spaces deleted. *)
Definition remove_spaces (s : jsstring) : jsstring :=
  filter (fun c => negb (c =? ch_space)) s.

(** Every name and value that [toString] visits can be encoded. *)
Definition all_encodable (o : props) : bool :=
  forallb (fun nv => encodable (fst nv) && encodable (snd nv)) (visited o).

(** A segment of [toString]: the encoded name, [=], the encoded value. *)
Definition segment_by_code (nv : jsstring * jsstring) : jsstring :=
  encoded (fst nv) ++ js "=" ++ encoded (snd nv).

(** What [encodeURI] writes for one ASCII character: the character
    itself when it is a letter, a digit or one of [- _ . *], [+] for a
    space, NUL for NUL, and the escape [%XX] otherwise. *)
Definition encode_ascii (c : N) : jsstring :=
  if stable_char c then [c] else transformed_octet c.

End Spec.

(** ** Properties *)
Module Properties.
Import JS URLSearch Spec.

(** *** The property store *)

Lemma eqb_str_eq a b : eqb_str a b = true <-> a = b.
Proof.
  revert b. induction a as [|x a IH]; intros [|y b]; simpl;
    try (split; [discriminate|congruence]); try tauto.
  rewrite andb_true_iff, N.eqb_eq, IH. split.
  - now intros [-> ->].
  - now intros [= -> ->].
Qed.

Lemma eqb_str_refl a : eqb_str a a = true.
Proof. now apply eqb_str_eq. Qed.

Lemma eqb_str_neq a b : eqb_str a b = false <-> a <> b.
Proof.
  rewrite <- eqb_str_eq. destruct (eqb_str a b); split; congruence.
Qed.

Lemma own_put_same name v o : own name (put name v o) = Some v.
Proof.
  induction o as [|[k w] o IH]; simpl.
  - now rewrite eqb_str_refl.
  - destruct (eqb_str k name) eqn:E; simpl; rewrite E; auto.
Qed.

Lemma own_put_other name m v o :
  name <> m -> own m (put name v o) = own m o.
Proof.
  intros Hne. induction o as [|[k w] o IH]; simpl.
  - apply eqb_str_neq in Hne. now rewrite Hne.
  - destruct (eqb_str k name) eqn:E; simpl.
    + apply eqb_str_eq in E. subst k.
      apply eqb_str_neq in Hne. now rewrite Hne.
    + destruct (eqb_str k m); auto.
Qed.

Lemma own_remove_same name o : own name (remove name o) = None.
Proof.
  induction o as [|[k w] o IH]; simpl; auto.
  destruct (eqb_str k name) eqn:E; simpl; auto. now rewrite E.
Qed.

Lemma own_remove_other name m o :
  name <> m -> own m (remove name o) = own m o.
Proof.
  intros Hne. induction o as [|[k w] o IH]; simpl; auto.
  destruct (eqb_str k name) eqn:E; simpl.
  - apply eqb_str_eq in E. subst k.
    apply eqb_str_neq in Hne. now rewrite Hne.
  - destruct (eqb_str k m); auto.
Qed.


(** *** Looking a name up *)

Lemma lookup_own name vs o p : own name o = Some vs -> lookup name o p = OwnArray vs.
Proof. intros H. unfold lookup. now rewrite H. Qed.

Lemma lookup_object name o :
  lookup name o ObjectPrototype
  = match own name o with
    | Some vs => OwnArray vs
    | None => if inherited name then Builtin else Absent
    end.
Proof. reflexivity. Qed.

Lemma lookup_inherited name o p :
  own name o = None -> lookup name o p = lookup name [] p.
Proof. intros H. unfold lookup. now rewrite H. Qed.

Lemma lookup_proto_name o l :
  own proto_name o = None -> lookup proto_name o (ArrayInstance l) = PrototypeArray l.
Proof. intros H. unfold lookup. now rewrite H. Qed.

Lemma has_property_own name o p :
  has_property name o p
  = match own name o with Some _ => true | None => inherits p name end.
Proof.
  unfold inherits, has_property, lookup. now destruct (own name o).
Qed.

Lemma inherits_object name : inherits ObjectPrototype name = inherited name.
Proof.
  unfold inherits, has_property, lookup. simpl. now destruct (inherited name).
Qed.

Lemma has_object name o :
  has_property name o ObjectPrototype
  = match own name o with Some _ => true | None => inherited name end.
Proof. now rewrite has_property_own, inherits_object. Qed.

Lemma inherits_proto_name p : inherits p proto_name = true.
Proof. destruct p; reflexivity. Qed.

Lemma lookup_not_inherited name o p :
  own name o = None -> inherits p name = false -> lookup name o p = Absent.
Proof.
  intros Ho Hi. rewrite lookup_inherited by assumption.
  unfold inherits, has_property in Hi. now destruct (lookup name [] p).
Qed.

Lemma not_inherited_not_proto p name : inherits p name = false -> name <> proto_name.
Proof. intros H ->. rewrite inherits_proto_name in H. discriminate. Qed.

Lemma secret_assign_other n v this :
  n <> proto_name ->
  secret_assign n v this = mk (put n v (secret this)) (secret_prototype this).
Proof.
  intros Hn. apply eqb_str_neq in Hn. unfold secret_assign, assign. rewrite Hn.
  now destruct (own n (secret this)).
Qed.

Lemma secret_assign_own n v this :
  own n (secret this) <> None ->
  secret_assign n v this = mk (put n v (secret this)) (secret_prototype this).
Proof.
  intros Hn. unfold secret_assign, assign.
  destruct (own n (secret this)); [reflexivity|congruence].
Qed.

Lemma secret_assign_proto v this :
  own proto_name (secret this) = None ->
  secret_assign proto_name v this = mk (secret this) (ArrayInstance v).
Proof.
  intros Hn. unfold secret_assign, assign. now rewrite Hn.
Qed.

(** C9.  After [set(n, v)] the values of [n] are exactly the string form
    of [v], whatever was stored before, and the string is stored as it
    is: no [+] is removed and no escape decoded.  This holds for every
    name: under [__proto__] the array becomes the prototype of the store
    instead of a property, and [get], [getAll] and [has] read it from
    there. *)
Theorem set_replaces_all_values (n : jsstring) (v : primitive) (this : URLSearch) :
  getAll n (set n v this) = Normal (Arr [ToString v])
  /\ get n (set n v this) = StringValue (ToString v)
  /\ has n (set n v this) = true
  /\ (n <> proto_name -> own n (secret (set n v this)) = Some [ToString v])
  /\ (n = proto_name -> own n (secret this) = None ->
      secret (set n v this) = secret this
      /\ secret_prototype (set n v this) = ArrayInstance [ToString v]).
Proof.
  assert (Hown : own n (secret (set n v this)) = Some [ToString v]
                 \/ (n = proto_name /\ own n (secret this) = None)).
  { destruct (list_eq_dec N.eq_dec n proto_name) as [Hn|Hn].
    - destruct (own n (secret this)) eqn:E; [|now right].
      left. unfold set. rewrite secret_assign_own by congruence.
      apply own_put_same.
    - left. unfold set. rewrite secret_assign_other by assumption.
      apply own_put_same. }
  assert (Hat : secret_at n (set n v this) = OwnArray [ToString v]
                \/ secret_at n (set n v this) = PrototypeArray [ToString v]).
  { destruct Hown as [H|[-> H]].
    - left. now apply lookup_own.
    - right. unfold set. rewrite secret_assign_proto by assumption.
      now apply lookup_proto_name. }
  assert (Hhas : has n (set n v this) = true).
  { unfold has, has_property. fold (secret_at n (set n v this)).
    destruct Hat as [-> | ->]; reflexivity. }
  split; [|split; [|split; [exact Hhas|split]]].
  - unfold getAll. rewrite Hhas. destruct Hat as [-> | ->]; reflexivity.
  - unfold get. rewrite Hhas. destruct Hat as [-> | ->]; reflexivity.
  - intros Hn. destruct Hown as [H|[H _]]; [exact H|contradiction].
  - intros -> H. unfold set. now rewrite secret_assign_proto.
Qed.

Lemma set_replaces_all_values_witness :
  let c := fst (append (js "a") (Arr [js "1"; js "2"]) empty) in
  getAll (js "a") c = Normal (Arr [js "1"; js "2"])
  /\ getAll (js "a") (set (js "a") (PString (js "x+y%20z")) c)
     = Normal (Arr [js "x+y%20z"])
  /\ getAll proto_name (set proto_name (PString (js "x+y%20z")) c)
     = Normal (Arr [js "x+y%20z"]).
Proof.
  split; [reflexivity|]. split.
  - apply (set_replaces_all_values (js "a") (PString (js "x+y%20z"))).
  - apply (set_replaces_all_values proto_name (PString (js "x+y%20z"))).
Defined.

(** C10.  [set] has no guard on the name: [set('', v)] stores [v] under
    the empty name, while [append('', ...)] returns at once. *)
Theorem set_empty_name_append_guard (v : primitive) (values : Values) (this : URLSearch) :
  has [] (set [] v this) = true
  /\ get [] (set [] v this) = StringValue (ToString v)
  /\ append [] values this = (this, Normal ReturnsThis).
Proof.
  assert (Hat : secret_at [] (set [] v this) = OwnArray [ToString v]).
  { apply lookup_own. unfold set. rewrite secret_assign_other by discriminate.
    apply own_put_same. }
  assert (Hhas : has [] (set [] v this) = true).
  { unfold has, has_property. fold (secret_at [] (set [] v this)).
    now rewrite Hat. }
  unfold get. rewrite Hhas, Hat. auto.
Qed.

(** *** Sorting *)
Section SortFacts.
Context {A : Type} (leb : A -> A -> bool).
Hypothesis leb_total : forall a b, leb a b = false -> leb b a = true.

Let R (a b : A) : Prop := leb a b = true.

Lemma insert_perm x l : Permutation (insert leb x l) (x :: l).
Proof.
  induction l as [|y l IH]; simpl; auto.
  destruct (leb x y); auto.
  rewrite IH. apply perm_swap.
Qed.

Lemma sort_by_perm l : Permutation (sort_by leb l) l.
Proof.
  induction l as [|x l IH]; simpl; auto.
  rewrite insert_perm. now constructor.
Qed.

Lemma insert_HdRel a x l :
  R a x -> HdRel R a l -> HdRel R a (insert leb x l).
Proof.
  intros Hax Hal. destruct l as [|y l]; simpl.
  - now constructor.
  - destruct (leb x y); constructor; auto. now inversion Hal.
Qed.

Lemma insert_sorted x l : Sorted R l -> Sorted R (insert leb x l).
Proof.
  induction 1 as [|y l Hs IH Hd]; simpl.
  - repeat constructor.
  - destruct (leb x y) eqn:E.
    + constructor; [now constructor|]. now constructor.
    + constructor; auto. apply insert_HdRel; auto. now apply leb_total.
Qed.

Lemma sort_by_sorted l : Sorted R (sort_by leb l).
Proof.
  induction l; simpl; [constructor|]. now apply insert_sorted.
Qed.

Lemma sort_by_fixed l : Sorted R l -> sort_by leb l = l.
Proof.
  induction 1 as [|x l Hs IH Hd]; simpl; auto.
  rewrite IH. destruct Hd as [|y l Hxy]; simpl; auto.
  unfold R in Hxy. now rewrite Hxy.
Qed.
End SortFacts.


Lemma StronglySorted_filter {A} (R : A -> A -> Prop) (p : A -> bool) l :
  StronglySorted R l -> StronglySorted R (filter p l).
Proof.
  induction 1 as [|x l Hs IH Hall]; simpl; [constructor|].
  destruct (p x); auto. constructor; auto.
  rewrite Forall_forall in *. intros y Hy.
  apply filter_In in Hy. now apply Hall.
Qed.

Lemma StronglySorted_snoc {A} (R : A -> A -> Prop) l x :
  StronglySorted R l -> Forall (fun y => R y x) l -> StronglySorted R (l ++ [x]).
Proof.
  induction 1 as [|y l Hs IH Hall]; simpl; intros Hx.
  - repeat constructor.
  - inversion Hx; subst. constructor; auto.
    apply Forall_app. split; auto.
Qed.

(** The order of [sort] on strings is total and transitive. *)
Lemma leb_str_total a b : leb_str a b = false -> leb_str b a = true.
Proof.
  revert b. induction a as [|x a IH]; intros [|y b]; simpl; auto; try discriminate.
  destruct (x <? y) eqn:E1; [discriminate|].
  destruct (y <? x) eqn:E2; auto.
Qed.

Lemma leb_str_trans a b c :
  leb_str a b = true -> leb_str b c = true -> leb_str a c = true.
Proof.
  revert b c. induction a as [|x a IH]; intros [|y b] [|z c]; simpl; auto;
    try discriminate.
  destruct (x <? y) eqn:E1.
  - apply N.ltb_lt in E1. intros _.
    destruct (y <? z) eqn:E2.
    + apply N.ltb_lt in E2. intros _.
      assert (H : (x <? z) = true) by (apply N.ltb_lt; lia). now rewrite H.
    + destruct (z <? y) eqn:E3; [discriminate|].
      apply N.ltb_ge in E2, E3. intros _.
      assert (H : (x <? z) = true) by (apply N.ltb_lt; lia). now rewrite H.
  - destruct (y <? x) eqn:E2; [discriminate|].
    apply N.ltb_ge in E1, E2. assert (x = y) by lia. subst y.
    intros Hab. destruct (x <? z); auto. destruct (z <? x); auto.
    now apply IH.
Qed.

Lemma array_sort_sorted l : Sorted lex_le (array_sort l).
Proof. apply (sort_by_sorted leb_str leb_str_total). Qed.

Lemma array_sort_strongly_sorted l : StronglySorted lex_le (array_sort l).
Proof.
  apply Sorted_StronglySorted; [|apply array_sort_sorted].
  intros a b c. apply leb_str_trans.
Qed.

Lemma leb_fst_total {B} (a b : N * B) : leb_fst a b = false -> leb_fst b a = true.
Proof.
  unfold leb_fst. intros H. apply N.leb_gt in H. apply N.leb_le. lia.
Qed.

(** *** Enumeration of the store *)

Lemma index_entries_spec o :
  Forall (fun p => array_index (fst (snd p)) = Some (fst p)) (index_entries o).
Proof.
  induction o as [|[k v] o IH]; simpl; [constructor|].
  unfold index_entries in *. simpl.
  destruct (array_index k) eqn:E; simpl; auto.
Qed.

Lemma index_entries_snd o :
  map snd (index_entries o) = filter (fun kv => is_index (fst kv)) o.
Proof.
  induction o as [|[k v] o IH]; simpl; auto.
  unfold index_entries in *. simpl. unfold is_index.
  destruct (array_index k); simpl; now rewrite IH.
Qed.

Lemma filter_partition_perm {A} (p : A -> bool) l :
  Permutation (filter p l ++ filter (fun x => negb (p x)) l) l.
Proof.
  induction l as [|x l IH]; simpl; auto.
  destruct (p x); simpl.
  - now constructor.
  - symmetry. apply Permutation_cons_app. now symmetry.
Qed.

Lemma own_enum_perm o : Permutation (own_enum o) o.
Proof.
  unfold own_enum.
  rewrite (Permutation_map snd (sort_by_perm leb_fst (index_entries o))).
  rewrite index_entries_snd.
  apply (filter_partition_perm (fun kv => is_index (fst kv))).
Qed.

Lemma own_In name o : In name (map fst o) <-> exists vs, own name o = Some vs.
Proof.
  induction o as [|[k v] o IH]; simpl.
  - split; [tauto|]. intros [vs H]; discriminate.
  - destruct (eqb_str k name) eqn:E.
    + apply eqb_str_eq in E. split; eauto.
    + apply eqb_str_neq in E. rewrite <- IH. tauto.
Qed.

Lemma foldM_normal {A B} (f : A -> B -> A) l a :
  foldM (fun a x => Normal (f a x)) l a = Normal (fold_left f l a).
Proof.
  revert a. induction l as [|x l IH]; intros a; simpl; auto.
Qed.

Lemma foldM_ext {A B} (f g : A -> B -> completion A) l a :
  (forall a x, In x l -> f a x = g a x) -> foldM f l a = foldM g l a.
Proof.
  revert a. induction l as [|x l IH]; intros a H; simpl; auto.
  rewrite H by now left. destruct (g a x); simpl; auto.
  apply IH. intros; apply H. now right.
Qed.

Lemma bind_Normal {A} (m : completion A) (k : A -> completion A) :
  (forall a, k a = Normal a) -> bind m k = m.
Proof. intros H. destruct m; simpl; auto. Qed.

(** The inherited names of the loop are skipped. *)
Lemma inherited_names_skipped {A} o (l : list jsstring) (a : A) :
  enumerable o ->
  foldM (fun a name => bind (hasOwnProperty o name) (fun _ => Normal a)) l a = Normal a.
Proof.
  intros H. induction l as [|name l IH]; simpl; auto.
  unfold hasOwnProperty at 1. unfold enumerable in H. rewrite H. simpl. exact IH.
Qed.

Lemma for_in_own_enumerable {A} o p (body : A -> jsstring -> list jsstring -> completion A) a :
  enumerable o ->
  for_in_own o p body a = foldM (fun a kv => body a (fst kv) (snd kv)) (own_enum o) a.
Proof.
  intros H. unfold for_in_own.
  rewrite bind_Normal by (intros a'; now apply inherited_names_skipped).
  apply foldM_ext. intros a' kv Hkv.
  unfold hasOwnProperty. unfold enumerable in H. rewrite H. simpl.
  assert (Hin : In (fst kv) (map fst o)).
  { apply in_map. eapply Permutation_in; [apply own_enum_perm|exact Hkv]. }
  apply own_In in Hin. destruct Hin as [vs Hvs]. now rewrite Hvs.
Qed.

Lemma for_in_own_shadowed {A} o p (body : A -> jsstring -> list jsstring -> completion A) a :
  ~ enumerable o -> for_in_own o p body a = Throw TypeError.
Proof.
  intros H. unfold for_in_own.
  assert (Hne : own_enum o <> []).
  { intros E. apply H. unfold enumerable.
    assert (o = []) as ->.
    { apply Permutation_nil. rewrite <- E. apply own_enum_perm. }
    reflexivity. }
  destruct (own_enum o) as [|kv l]; [congruence|]. simpl.
  unfold hasOwnProperty. unfold enumerable in H.
  destruct (own (js "hasOwnProperty") o); [reflexivity|congruence].
Qed.

Lemma fold_left_snoc_map {A B} (f : B -> A) l acc :
  fold_left (fun names x => names ++ [f x]) l acc = acc ++ map f l.
Proof.
  revert acc. induction l as [|x l IH]; intros acc; simpl.
  - now rewrite app_nil_r.
  - rewrite IH. now rewrite <- app_assoc.
Qed.

(** The names [keys] returns are those of the enumeration. *)
Lemma keys_enum this :
  enumerable (secret this) ->
  keys this = Normal (map fst (own_enum (secret this))).
Proof.
  intros H. unfold keys. rewrite for_in_own_enumerable by assumption.
  rewrite (foldM_normal (fun names kv => names ++ [fst kv])).
  now rewrite fold_left_snoc_map.
Qed.

Lemma forEach_normal {A} (f : A -> jsstring -> jsstring -> A) a this :
  enumerable (secret this) ->
  forEach (Some (fun a v n => Normal (f a v n))) a this
  = Normal (fold_left (fun a nv => f a (snd nv) (fst nv)) (visited (secret this)) a).
Proof.
  intros H. unfold forEach, visited.
  rewrite for_in_own_enumerable by assumption.
  generalize (own_enum (secret this)) as l. intros l. revert a.
  induction l as [|[k vs] l IH]; intros a; simpl; auto.
  rewrite (foldM_normal (fun a v => f a v k)). simpl.
  rewrite IH. rewrite fold_left_app. f_equal. f_equal.
  clear. revert a. induction vs as [|v vs IH]; intros a; simpl; auto.
Qed.

Lemma entries_visited this :
  enumerable (secret this) ->
  entries this = Normal (visited (secret this)).
Proof.
  intros H. unfold entries.
  rewrite (forEach_normal (fun it v n => it ++ [(n, v)])) by assumption.
  rewrite (fold_left_snoc_map (fun nv => (fst nv, snd nv))). simpl.
  f_equal. rewrite <- (map_id (visited (secret this))) at 2.
  apply map_ext. now intros [].
Qed.

Lemma values_visited this :
  enumerable (secret this) ->
  values this = Normal (map snd (visited (secret this))).
Proof.
  intros H. unfold values.
  rewrite (forEach_normal (fun vs v _ => vs ++ [v])) by assumption.
  now rewrite (fold_left_snoc_map snd).
Qed.

Lemma filter_map_fst {B} (p : jsstring -> bool) (o : list (jsstring * B)) :
  map fst (filter (fun kv => p (fst kv)) o) = filter p (map fst o).
Proof.
  induction o as [|[k v] o IH]; simpl; auto.
  destruct (p k); simpl; now rewrite IH.
Qed.

Lemma own_enum_names o :
  map fst (own_enum o) = index_names o ++ other_names o.
Proof.
  unfold own_enum, index_names, other_names. rewrite map_app. f_equal.
  apply (filter_map_fst not_index).
Qed.




Lemma own_None_In name o : own name o = None <-> ~ In name (map fst o).
Proof.
  rewrite own_In. split.
  - intros H [vs Hvs]. congruence.
  - intros H. destruct (own name o); auto. exfalso. eauto.
Qed.

Lemma own_Forall (P : list jsstring -> Prop) name vs o :
  Forall (fun kv => P (snd kv)) o -> own name o = Some vs -> P vs.
Proof.
  induction 1 as [|[k v] o Hk Ho IH]; simpl; [discriminate|].
  destruct (eqb_str k name); auto. intros [= <-]. exact Hk.
Qed.

Lemma map_fst_put name v o :
  map fst (put name v o)
  = match own name o with
    | Some _ => map fst o
    | None => map fst o ++ [name]
    end.
Proof.
  induction o as [|[k w] o IH]; simpl; auto.
  destruct (eqb_str k name) eqn:E; simpl; auto.
  rewrite IH. now destruct (own name o).
Qed.

Lemma put_Forall (P : list jsstring -> Prop) name v o :
  P v -> Forall (fun kv => P (snd kv)) o ->
  Forall (fun kv => P (snd kv)) (put name v o).
Proof.
  intros Hv. induction 1 as [|[k w] o Hk Ho IH]; simpl.
  - repeat constructor; auto.
  - destruct (eqb_str k name); constructor; auto.
Qed.

(** *** [sort] *)
Section SortLoop.
Variable g : jsstring -> list jsstring.

Let step (temp : props) (key : jsstring) : props := put key (g key) temp.

Lemma sort_loop_names l acc :
  StronglySorted lex_le l ->
  StronglySorted lex_le (map fst acc) ->
  Forall (fun k => Forall (lex_le k) l) (map fst acc) ->
  StronglySorted lex_le (map fst (fold_left step l acc)).
Proof.
  revert acc. induction l as [|key l IH]; intros acc Hl Hacc Hle; simpl; auto.
  inversion Hl as [|? ? Hl' Hkey]; subst.
  apply IH; auto; unfold step; rewrite map_fst_put; destruct (own key acc) eqn:E.
  - assumption.
  - apply StronglySorted_snoc; auto.
    eapply Forall_impl; [|exact Hle]. intros k Hk. now inversion Hk.
  - eapply Forall_impl; [|exact Hle]. intros k Hk. now inversion Hk.
  - apply Forall_app. split.
    + eapply Forall_impl; [|exact Hle]. intros k Hk. now inversion Hk.
    + now repeat constructor.
Qed.

Lemma sort_loop_values (P : list jsstring -> Prop) l acc :
  (forall k, P (g k)) ->
  Forall (fun kv => P (snd kv)) acc ->
  Forall (fun kv => P (snd kv)) (fold_left step l acc).
Proof.
  intros Hg. revert acc. induction l as [|key l IH]; intros acc Hacc; simpl; auto.
  apply IH. now apply put_Forall.
Qed.

Lemma sort_loop_own name l acc :
  ~ In name l -> own name (fold_left step l acc) = own name acc.
Proof.
  revert acc. induction l as [|key l IH]; intros acc Hn; simpl; auto.
  rewrite IH by (intros H; apply Hn; now right).
  unfold step. apply own_put_other. intros ->. apply Hn. now left.
Qed.
End SortLoop.


(** As long as no property is called [__proto__], the loop of [sort]
    writes own properties only. *)
Lemma sort_loop_assign (g : jsstring -> list jsstring) l acc :
  ~ In proto_name l ->
  fold_left (fun temp key => secret_assign key (g key) temp) l acc
  = mk (fold_left (fun temp key => put key (g key) temp) l (secret acc))
       (secret_prototype acc).
Proof.
  revert acc. induction l as [|key l IH]; intros acc Hn; simpl.
  - now destruct acc.
  - rewrite IH by (intros H; apply Hn; now right).
    rewrite secret_assign_other by (intros ->; apply Hn; now left).
    reflexivity.
Qed.

Lemma sorted_keys_names o n :
  In n (array_sort (map fst (own_enum o))) <-> In n (map fst o).
Proof.
  split; intros H.
  - eapply Permutation_in in H; [|apply (sort_by_perm leb_str)].
    eapply Permutation_in; [|exact H].
    apply Permutation_map, own_enum_perm.
  - eapply Permutation_in; [symmetry; apply (sort_by_perm leb_str)|].
    eapply Permutation_in; [|exact H].
    apply Permutation_map. symmetry. apply own_enum_perm.
Qed.

(** [sort] on a store without properties called [hasOwnProperty] or
    [__proto__]: the sorted names are written into the empty object, one
    own property each. *)
Lemma sort_assignable this :
  enumerable (secret this) -> assignable (secret this) ->
  sort this
  = Normal (mk (fold_left
                  (fun temp key =>
                     put key (array_sort (match own key (secret this) with
                                          | Some vs => vs
                                          | None => []
                                          end)) temp)
                  (array_sort (map fst (own_enum (secret this)))) [])
               ObjectPrototype).
Proof.
  intros He Ha. unfold sort. rewrite keys_enum by assumption. simpl.
  rewrite (sort_loop_assign
             (fun key => array_sort (match own key (secret this) with
                                     | Some vs => vs
                                     | None => []
                                     end))).
  - reflexivity.
  - rewrite sorted_keys_names. now apply own_None_In.
Qed.




(** *** Histories of calls and the first-seen order of names *)

(** The loop over a mapping: it appends every pair, unless a property
    called [hasOwnProperty] stops it at the first one. *)
Lemma append_own_each query l this :
  existsb (fun p => eqb_str (fst p) (js "hasOwnProperty")) query = false ->
  incl l query ->
  append_own query l this = append_each l this.
Proof.
  intros Hs. revert this. induction l as [|[n vs] l IH]; intros this Hl; simpl; auto.
  unfold query_hasOwnProperty. rewrite Hs. simpl.
  assert (E : existsb (fun p => eqb_str (fst p) n) query = true).
  { apply existsb_exists. exists (n, vs). split; [apply Hl; now left|].
    apply eqb_str_refl. }
  rewrite E. destruct (append n vs this) as [this' [r|e]]; auto.
  apply IH. intros x Hx. apply Hl. now right.
Qed.

Lemma append_own_shadowed query l this :
  existsb (fun p => eqb_str (fst p) (js "hasOwnProperty")) query = true ->
  l <> [] ->
  append_own query l this = Throw TypeError.
Proof.
  intros Hs Hl. destruct l as [|[n vs] l]; [congruence|]. simpl.
  unfold query_hasOwnProperty. now rewrite Hs.
Qed.

(** A constructor that completes has made the appends of its pairs. *)
Lemma constructor_appends query c :
  constructor query = Normal c ->
  append_each (constructor_pairs query) empty = Normal c.
Proof.
  destruct query as [q|l|l|]; simpl; auto.
  destruct (existsb (fun p => eqb_str (fst p) (js "hasOwnProperty")) l) eqn:E.
  - destruct l as [|x l]; [discriminate|].
    rewrite append_own_shadowed by (auto; discriminate). discriminate.
  - rewrite append_own_each by (auto; apply incl_refl). auto.
Qed.

Lemma append_each_perform_all l this :
  append_each l this
  = perform_all (map (fun p => CallAppend (fst p) (snd p)) l) this.
Proof.
  unfold perform_all. revert this.
  induction l as [|[n vs] l IH]; intros this; simpl; auto.
  destruct (append n vs this) as [this' [r|e]]; simpl; auto.
Qed.

Lemma constructor_perform_all query c :
  constructor query = Normal c ->
  perform_all (constructor_calls query) empty = Normal c.
Proof.
  intros H. apply constructor_appends in H.
  rewrite append_each_perform_all in H. exact H.
Qed.

Lemma perform_all_app cs1 cs2 this :
  perform_all (cs1 ++ cs2) this = bind (perform_all cs1 this) (perform_all cs2).
Proof.
  unfold perform_all. revert this.
  induction cs1 as [|c cs1 IH]; intros this; simpl; auto.
  destruct (perform c this); simpl; auto.
Qed.

Lemma eqb_str_sym a b : eqb_str a b = eqb_str b a.
Proof.
  destruct (eqb_str b a) eqn:E.
  - apply eqb_str_eq in E. subst. apply eqb_str_refl.
  - apply eqb_str_neq in E. apply eqb_str_neq. congruence.
Qed.

Lemma seen_own n o :
  seen n (map fst o) = match own n o with Some _ => true | None => false end.
Proof.
  unfold seen. induction o as [|[k v] o IH]; simpl; auto.
  rewrite (eqb_str_sym n k). destruct (eqb_str k n); simpl; auto.
Qed.

Lemma seen_In n names : seen n names = true <-> In n names.
Proof.
  unfold seen. rewrite existsb_exists. split.
  - intros [k [Hk E]]. apply eqb_str_eq in E. now subst.
  - intros H. exists n. split; auto. apply eqb_str_refl.
Qed.

Ltac lookup_cases :=
  repeat match goal with
         | H : context [match ?x with _ => _ end] |- _ =>
             let E := fresh "E" in destruct x eqn:E; try discriminate
         end.

Lemma secret_at_own n vs this :
  secret_at n this = OwnArray vs <-> own n (secret this) = Some vs.
Proof.
  split; intros H.
  - unfold secret_at, lookup in H. lookup_cases. congruence.
  - now apply lookup_own.
Qed.

Lemma secret_at_prototype n vs this :
  secret_at n this = PrototypeArray vs ->
  n = proto_name /\ own n (secret this) = None
  /\ secret_prototype this = ArrayInstance vs.
Proof.
  intros H. unfold secret_at, lookup in H. lookup_cases.
  injection H as <-. repeat split; auto. now apply eqb_str_eq.
Qed.

Lemma secret_at_absent n this : secret_at n this = Absent <-> has n this = false.
Proof.
  unfold has, has_property, secret_at.
  destruct (lookup n (secret this) (secret_prototype this)); split; congruence.
Qed.


Lemma push_all_nil n this : push_all n [] this = (this, Normal ReturnsUndefined).
Proof. reflexivity. Qed.

Lemma push_all_own_cons n v vals this arr :
  own n (secret this) = Some arr ->
  push_all n (v :: vals) this
  = match decode_value v with
    | Some d => push_all n vals
                  (mk (put n (arr ++ [d]) (secret this)) (secret_prototype this))
    | None => (this, Throw URIError)
    end.
Proof.
  intros H. simpl. unfold secret_at. rewrite (lookup_own _ _ _ _ H). reflexivity.
Qed.

Lemma push_all_names n vals this :
  map fst (secret (fst (push_all n vals this))) = map fst (secret this).
Proof.
  revert this. induction vals as [|v vals IH]; intros this; simpl; auto.
  destruct (secret_at n this) eqn:E; simpl; auto;
    destruct (decode_value v); simpl; auto; rewrite IH; simpl; auto.
  apply secret_at_own in E. now rewrite map_fst_put, E.
Qed.

Lemma push_all_object n vals this :
  secret_prototype this = ObjectPrototype ->
  secret_prototype (fst (push_all n vals this)) = ObjectPrototype.
Proof.
  revert this. induction vals as [|v vals IH]; intros this Hp; simpl; auto.
  destruct (secret_at n this) eqn:E; simpl; auto;
    destruct (decode_value v); simpl; auto.
  apply secret_at_prototype in E. destruct E as (_ & _ & E). congruence.
Qed.

Lemma push_all_inherited n vals this r :
  own n (secret this) = None ->
  secret_prototype this = ObjectPrototype ->
  snd (push_all n vals this) = Normal r -> vals = [].
Proof.
  intros Hn Hp. destruct vals as [|v vals]; simpl; auto.
  unfold secret_at. rewrite Hp, lookup_object, Hn.
  destruct (inherited n); simpl; [|discriminate].
  destruct (decode_value v); simpl; discriminate.
Qed.

Lemma append_names n values this this' r :
  secret_prototype this = ObjectPrototype ->
  append n values this = (this', Normal r) ->
  map fst (secret this') = first_seen_step (map fst (secret this)) (CallAppend n values)
  /\ secret_prototype this' = ObjectPrototype.
Proof.
  intros Hp. unfold append, first_seen_step, see.
  destruct (is_empty n || falsy values) eqn:G; simpl.
  - now intros [= <- _].
  - rewrite seen_own. unfold secret_at. rewrite Hp, lookup_object.
    set (vals := as_array values).
    destruct (own n (secret this)) eqn:E; simpl.
    + rewrite andb_false_r.
      pose proof (push_all_names n vals this) as Hk.
      pose proof (push_all_object n vals this Hp) as Ho.
      destruct (push_all n vals this) as [t r'].
      intros [= <- _]. auto.
    + destruct (inherited n) eqn:I; simpl.
      * pose proof (push_all_inherited n vals this) as Hv.
        destruct (push_all n vals this) as [t r'] eqn:P.
        intros [= <- ->]. specialize (Hv r E Hp eq_refl).
        rewrite Hv, push_all_nil in P. injection P as <- _. auto.
      * assert (Hn : n <> proto_name) by (intros ->; discriminate).
        rewrite secret_assign_other by assumption.
        set (this1 := mk (put n [] (secret this)) (secret_prototype this)).
        pose proof (push_all_names n vals this1) as Hk.
        pose proof (push_all_object n vals this1 Hp) as Ho.
        destruct (push_all n vals this1) as [t r'].
        intros [= <- _]. simpl in *. rewrite Hk, map_fst_put. now rewrite E.
Qed.


Lemma set_names n v this :
  n <> proto_name ->
  map fst (secret (set n v this)) = see n (map fst (secret this))
  /\ secret_prototype (set n v this) = secret_prototype this.
Proof.
  intros Hn. unfold set, see. rewrite secret_assign_other by assumption. simpl.
  rewrite map_fst_put, seen_own.
  now destruct (own n (secret this)).
Qed.

Lemma delete_names n this :
  map fst (secret (delete n this)) = forget n (map fst (secret this)).
Proof.
  unfold delete, forget, remove. simpl.
  apply (filter_map_fst (fun k => negb (eqb_str k n))).
Qed.

Lemma perform_names c this this' :
  call_ok c ->
  secret_prototype this = ObjectPrototype ->
  perform c this = Normal this' ->
  map fst (secret this') = first_seen_step (map fst (secret this)) c
  /\ secret_prototype this' = ObjectPrototype.
Proof.
  intros Hok Hp. destruct c as [n values|n v|n]; simpl.
  - destruct (append n values this) as [t [r|e]] eqn:E; [|discriminate].
    intros [= <-]. eapply append_names; eauto.
  - intros [= <-]. destruct (set_names n v this Hok) as [H1 H2].
    split; [exact H1|congruence].
  - intros [= <-]. split; [apply delete_names|exact Hp].
Qed.

Lemma perform_all_names cs this this' :
  Forall call_ok cs ->
  secret_prototype this = ObjectPrototype ->
  perform_all cs this = Normal this' ->
  map fst (secret this') = fold_left first_seen_step cs (map fst (secret this))
  /\ secret_prototype this' = ObjectPrototype.
Proof.
  unfold perform_all. intros Hok. revert this.
  induction Hok as [|c cs Hc Hcs IH]; intros this Hp; simpl.
  - now intros [= <-].
  - destruct (perform c this) as [t|e] eqn:E; simpl; [|discriminate].
    destruct (perform_names c this t Hc Hp E) as [H1 H2].
    intros H. destruct (IH t H2 H) as [H3 H4]. split; [|exact H4].
    rewrite H3. now f_equal.
Qed.

Lemma constructor_calls_ok query : Forall call_ok (constructor_calls query).
Proof.
  unfold constructor_calls. apply Forall_map, Forall_forall. intros p _. exact I.
Qed.

Lemma see_NoDup n names : NoDup names -> NoDup (see n names).
Proof.
  intros H. unfold see. destruct (seen n names) eqn:E; auto.
  apply NoDup_app; auto.
  - repeat constructor. tauto.
  - intros a Ha [<-|[]]. apply seen_In in Ha. congruence.
Qed.

Lemma first_seen_step_NoDup names c :
  NoDup names -> NoDup (first_seen_step names c).
Proof.
  intros H. destruct c as [n values|n v|n]; simpl.
  - destruct (is_empty n || falsy values || _); auto. now apply see_NoDup.
  - now apply see_NoDup.
  - now apply NoDup_filter.
Qed.

Lemma fold_first_seen_NoDup cs names :
  NoDup names -> NoDup (fold_left first_seen_step cs names).
Proof.
  revert names. induction cs as [|c cs IH]; intros names H; simpl; auto.
  apply IH. now apply first_seen_step_NoDup.
Qed.

Lemma insert_map {A B} (leb : A -> A -> bool) (leb' : B -> B -> bool) (h : A -> B) x l :
  (forall a b, leb' (h a) (h b) = leb a b) ->
  insert leb' (h x) (map h l) = map h (insert leb x l).
Proof.
  intros H. induction l as [|y l IH]; simpl; auto.
  rewrite H. destruct (leb x y); simpl; auto. now rewrite IH.
Qed.

Lemma sort_by_map {A B} (leb : A -> A -> bool) (leb' : B -> B -> bool) (h : A -> B) l :
  (forall a b, leb' (h a) (h b) = leb a b) ->
  sort_by leb' (map h l) = map h (sort_by leb l).
Proof.
  intros H. induction l as [|x l IH]; simpl; auto.
  rewrite IH. now apply insert_map.
Qed.

Lemma index_names_order o : index_names o = index_order (map fst o).
Proof.
  unfold index_names, index_order.
  set (h := fun p : N * (jsstring * list jsstring) => (fst p, fst (snd p))).
  assert (E : flat_map (fun n => match array_index n with
                                 | Some i => [(i, n)]
                                 | None => []
                                 end) (map fst o)
              = map h (index_entries o)).
  { unfold index_entries. induction o as [|[k v] o IH]; simpl; auto.
    rewrite IH. now destruct (array_index k). }
  rewrite E, (sort_by_map leb_fst leb_fst h) by reflexivity.
  rewrite !map_map. reflexivity.
Qed.

Lemma own_enum_order o : map fst (own_enum o) = enumeration_order (map fst o).
Proof.
  rewrite own_enum_names, index_names_order. reflexivity.
Qed.

Lemma NoDup_own k v o : NoDup (map fst o) -> In (k, v) o -> own k o = Some v.
Proof.
  induction o as [|[k' v'] o IH]; simpl; [tauto|].
  intros Hnd [H|H].
  - injection H as -> ->. now rewrite eqb_str_refl.
  - inversion Hnd as [|? ? Hk Hnd']; subst.
    destruct (eqb_str k' k) eqn:E; auto.
    apply eqb_str_eq in E. subst k'. exfalso. apply Hk.
    apply in_map_iff. now exists (k, v).
Qed.






(** *** Errors *)










Ltac Zify.zify_post_hook ::= Z.to_euclidean_division_equations.

Ltac bool_lia :=
  repeat match goal with
         | H : _ && _ = true |- _ => apply andb_true_iff in H; destruct H
         | H : _ || _ = true |- _ => apply orb_true_iff in H; destruct H
         | H : _ && _ = false |- _ => apply andb_false_iff in H; destruct H
         | H : _ || _ = false |- _ => apply orb_false_iff in H; destruct H
         | H : (_ <=? _) = true |- _ => apply N.leb_le in H
         | H : (_ <=? _) = false |- _ => apply N.leb_gt in H
         | H : (_ <? _) = true |- _ => apply N.ltb_lt in H
         | H : (_ <? _) = false |- _ => apply N.ltb_ge in H
         | H : (_ =? _) = true |- _ => apply N.eqb_eq in H
         | H : (_ =? _) = false |- _ => apply N.eqb_neq in H
         end;
  try lia.

#[local] Arguments N.eqb : simpl never.
#[local] Arguments N.ltb : simpl never.
#[local] Arguments N.leb : simpl never.

Lemma eqb_false_lia a b : a <> b -> (a =? b) = false.
Proof. intros. now apply N.eqb_neq. Qed.

Lemma replacement_one c :
  replacement [c] = if (c =? 33) || (c =? 39) || (c =? 40) || (c =? 41) || (c =? 126)
                    then Some (reencode c) else None.
Proof.
  unfold replacement, reencode, replacePairs. simpl.
  rewrite !andb_true_r, !(N.eqb_sym _ c).
  destruct (c =? 33) eqn:E1; [reflexivity|].
  destruct (c =? 39) eqn:E2; [reflexivity|].
  destruct (c =? 40) eqn:E3; [reflexivity|].
  destruct (c =? 41) eqn:E4; [reflexivity|].
  destruct (c =? 126) eqn:E5; [reflexivity|].
  simpl. now rewrite !andb_false_r.
Qed.

Lemma reencode_other c :
  (c =? 33) || (c =? 39) || (c =? 40) || (c =? 41) || (c =? 126) = false ->
  reencode c = [c].
Proof.
  intros H. unfold reencode. bool_lia.
  now rewrite !eqb_false_lia by lia.
Qed.

Lemma replacement_three c d1 d2 :
  replacement [c; d1; d2]
  = if (c =? 37) && (d1 =? 50) && (d2 =? 48) then Some [43]
    else if (c =? 37) && (d1 =? 48) && (d2 =? 48) then Some [0]
    else None.
Proof.
  unfold replacement, replacePairs. simpl.
  rewrite !andb_true_r, !andb_false_r.
  rewrite !(N.eqb_sym _ c), !(N.eqb_sym _ d1), !(N.eqb_sym _ d2).
  destruct (c =? 37) eqn:E; simpl.
  - bool_lia. subst c. simpl.
    destruct (d1 =? 50) eqn:E1; destruct (d2 =? 48) eqn:E2; simpl; auto;
      destruct (d1 =? 48) eqn:E3; simpl; auto; bool_lia.
  - reflexivity.
Qed.

Lemma replace_matches_unfold c rest :
  replace_matches (c :: rest)
  = match replacement [c] with
    | Some r => r ++ replace_matches rest
    | None =>
        match rest with
        | d1 :: d2 :: rest' =>
            match replacement [c; d1; d2] with
            | Some r => r ++ replace_matches rest'
            | None => c :: replace_matches rest
            end
        | _ => c :: replace_matches rest
        end
    end.
Proof. reflexivity. Qed.

Lemma replace_matches_other c s :
  c <> ch_percent -> replace_matches (c :: s) = reencode c ++ replace_matches s.
Proof.
  unfold ch_percent. intros Hc. rewrite replace_matches_unfold, replacement_one.
  destruct ((c =? 33) || (c =? 39) || (c =? 40) || (c =? 41) || (c =? 126)) eqn:E;
    [reflexivity|].
  rewrite (reencode_other c E).
  destruct s as [|d1 [|d2 s]]; auto.
  rewrite replacement_three. now rewrite (eqb_false_lia c 37).
Qed.

Lemma replace_matches_percent h1 h2 s :
  replace_matches (ch_percent :: h1 :: h2 :: s)
  = if (h1 =? 50) && (h2 =? 48) then 43 :: replace_matches s
    else if (h1 =? 48) && (h2 =? 48) then 0 :: replace_matches s
    else ch_percent :: replace_matches (h1 :: h2 :: s).
Proof.
  rewrite replace_matches_unfold, replacement_one, replacement_three.
  change (ch_percent =? 37) with true. change (ch_percent =? 33) with false.
  change (ch_percent =? 39) with false. change (ch_percent =? 40) with false.
  change (ch_percent =? 41) with false. change (ch_percent =? 126) with false.
  simpl orb. cbv iota. simpl andb.
  destruct ((h1 =? 50) && (h2 =? 48)); auto.
  destruct ((h1 =? 48) && (h2 =? 48)); auto.
Qed.

Lemma replace_triple_other a b c r x s :
  x <> a -> replace_triple a b c r (x :: s) = x :: replace_triple a b c r s.
Proof.
  intros Hx. simpl. destruct s as [|y [|z s]]; auto.
  now rewrite (eqb_false_lia x a).
Qed.

Lemma replace_triple_head a b c r y z s :
  replace_triple a b c r (a :: y :: z :: s)
  = if (y =? b) && (z =? c) then r ++ replace_triple a b c r s
    else a :: replace_triple a b c r (y :: z :: s).
Proof.
  simpl replace_triple at 1. now rewrite N.eqb_refl.
Qed.

Lemma hexchar_facts h :
  hexchar h = true ->
  h <> 37 /\ (h =? 33) || (h =? 39) || (h =? 40) || (h =? 41) || (h =? 126) = false.
Proof.
  unfold hexchar, in_range. intros H. split.
  - bool_lia.
  - bool_lia; rewrite !eqb_false_lia by lia; reflexivity.
Qed.

Lemma replace_triple_block b c r h1 h2 s :
  h1 <> 37 -> h2 <> 37 -> (h1 =? b) && (h2 =? c) = false ->
  replace_triple 37 b c r (37 :: h1 :: h2 :: s)
  = 37 :: h1 :: h2 :: replace_triple 37 b c r s.
Proof.
  intros H1 H2 Hne. rewrite replace_triple_head, Hne.
  now rewrite !replace_triple_other by assumption.
Qed.

Lemma reencode_cases c :
  c <> 37 ->
  reencode c = [c]
  \/ exists h1 h2, reencode c = [37; h1; h2] /\ h1 <> 37 /\ h2 <> 37
                   /\ (h1 =? 50) && (h2 =? 48) = false
                   /\ (h1 =? 48) && (h2 =? 48) = false.
Proof.
  intros Hc. unfold reencode.
  destruct (c =? 33); [right; exists 50, 49; repeat split; discriminate|].
  destruct (c =? 39); [right; exists 50, 55; repeat split; discriminate|].
  destruct (c =? 40); [right; exists 50, 56; repeat split; discriminate|].
  destruct (c =? 41); [right; exists 50, 57; repeat split; discriminate|].
  destruct (c =? 126); [right; exists 55, 69; repeat split; discriminate|].
  now left.
Qed.

(** On what [encodeURIComponent] writes, the one pass of the source and
    the three passes of the documentation agree. *)
Lemma replace_matches_passes e : escaped e -> replace_matches e = encode_passes e.
Proof.
  unfold encode_passes.
  induction 1 as [|c s Hc Hs IH|h1 h2 s H1 H2 Hs IH].
  - reflexivity.
  - rewrite replace_matches_other by assumption. rewrite IH. simpl flat_map.
    unfold ch_percent in Hc. remember (flat_map reencode s) as t.
    destruct (reencode_cases c Hc) as [->|(h1 & h2 & -> & P1 & P2 & N1 & N2)].
    + simpl app. rewrite (replace_triple_other 37 50 48) by assumption.
      now rewrite (replace_triple_other 37 48 48) by assumption.
    + simpl app. rewrite (replace_triple_block 50 48) by assumption.
      now rewrite (replace_triple_block 48 48) by assumption.
  - destruct (hexchar_facts h1 H1) as [P1 R1].
    destruct (hexchar_facts h2 H2) as [P2 R2].
    rewrite replace_matches_percent.
    simpl flat_map. rewrite (reencode_other h1 R1), (reencode_other h2 R2).
    change (reencode ch_percent) with [37]. simpl app. unfold ch_percent.
    remember (flat_map reencode s) as t.
    rewrite (replace_triple_head 37 50 48).
    destruct ((h1 =? 50) && (h2 =? 48)) eqn:E20.
    + simpl app. rewrite (replace_triple_other 37 48 48) by lia. now rewrite IH.
    + rewrite (replace_triple_other 37 50 48 [43] h1) by assumption.
      rewrite (replace_triple_other 37 50 48 [43] h2) by assumption.
      rewrite (replace_triple_head 37 48 48).
      destruct ((h1 =? 48) && (h2 =? 48)) eqn:E00.
      * simpl app. now rewrite IH.
      * rewrite (replace_triple_other 37 48 48 [0] h1) by assumption.
        rewrite (replace_triple_other 37 48 48 [0] h2) by assumption.
        rewrite !replace_matches_other by assumption.
        rewrite (reencode_other h1 R1), (reencode_other h2 R2). simpl.
        now rewrite IH.
Qed.

Lemma hexdigit_hexchar n : n < 16 -> hexchar (hexdigit n) = true.
Proof.
  intros Hn. unfold hexchar, hexdigit, in_range.
  destruct (n <? 10) eqn:E; bool_lia.
  - apply orb_true_iff. left. apply andb_true_iff. split; apply N.leb_le; lia.
  - apply orb_true_iff. right. apply andb_true_iff. split; apply N.leb_le; lia.
Qed.

Lemma escaped_octets bs e :
  Forall (fun b => b < 256) bs -> escaped e ->
  escaped (flat_map escape_octet bs ++ e).
Proof.
  induction 1 as [|b bs Hb Hbs IH]; intros He; simpl; auto.
  constructor; auto; apply hexdigit_hexchar; lia.
Qed.

Lemma utf8_encode_octets v : v < 2097152 -> Forall (fun b => b < 256) (utf8_encode v).
Proof.
  intros Hv. unfold utf8_encode.
  destruct (v <? 128) eqn:E1; [bool_lia; repeat constructor; lia|].
  destruct (v <? 2048) eqn:E2; [bool_lia; repeat constructor; lia|].
  destruct (v <? 65536) eqn:E3; bool_lia; repeat constructor; lia.
Qed.

Lemma uri_unescaped_not_percent c : uri_unescaped c = true -> c <> ch_percent.
Proof.
  unfold uri_unescaped, alnum, uri_mark, in_range, ch_percent. simpl.
  intros H ->. vm_compute in H. discriminate.
Qed.

Lemma encodeURIComponent_unfold c rest :
  encodeURIComponent (c :: rest)
  = if uri_unescaped c then option_map (cons c) (encodeURIComponent rest)
    else if in_range 56320 57343 c then None
    else if in_range 55296 56319 c then
      match rest with
      | d :: rest' =>
          if in_range 56320 57343 d then
            option_map (app (escape ((c - 55296) * 1024 + (d - 56320) + 65536)))
                       (encodeURIComponent rest')
          else None
      | [] => None
      end
    else option_map (app (escape c)) (encodeURIComponent rest).
Proof. reflexivity. Qed.

Lemma encodeURIComponent_escaped s e :
  well_formed s -> encodeURIComponent s = Some e -> escaped e.
Proof.
  remember (List.length s) as n eqn:Hn.
  assert (Hle : (List.length s <= n)%nat) by lia. clear Hn.
  revert s e Hle. induction n as [|n IH]; intros s e Hle Hwf.
  - destruct s; [|simpl in Hle; lia]. intros [= <-]. constructor.
  - destruct s as [|c rest]; [intros [= <-]; constructor|].
    simpl in Hle. inversion Hwf as [|? ? Hc Hrest]; subst.
    rewrite encodeURIComponent_unfold.
    destruct (uri_unescaped c) eqn:U.
    + destruct (encodeURIComponent rest) as [e'|] eqn:E; [|discriminate].
      intros [= <-]. constructor.
      * now apply uri_unescaped_not_percent.
      * apply (IH rest); auto. lia.
    + destruct (in_range 56320 57343 c) eqn:L; [discriminate|].
      destruct (in_range 55296 56319 c) eqn:H.
      * destruct rest as [|d rest']; [discriminate|].
        destruct (in_range 56320 57343 d) eqn:D; [|discriminate].
        destruct (encodeURIComponent rest') as [e'|] eqn:E; [|discriminate].
        intros [= <-]. unfold escape. apply escaped_octets.
        -- apply utf8_encode_octets. unfold in_range in *. bool_lia.
        -- inversion Hrest; subst. apply (IH rest'); auto. simpl in Hle. lia.
      * destruct (encodeURIComponent rest) as [e'|] eqn:E; [|discriminate].
        intros [= <-]. unfold escape. apply escaped_octets.
        -- apply utf8_encode_octets. unfold code_unit in Hc. lia.
        -- apply (IH rest); auto. lia.
Qed.

Lemma encodeURI_transform str :
  well_formed str -> encodeURI str = encode_transform str.
Proof.
  intros Hwf. unfold encodeURI, encode_transform.
  destruct (encodeURIComponent str) as [e|] eqn:E; simpl; auto.
  f_equal. apply replace_matches_passes.
  eapply encodeURIComponent_escaped; eauto.
Qed.

(** *** [toString] *)

Lemma foldM_app {A B} (f : A -> B -> completion A) l1 l2 a :
  foldM f (l1 ++ l2) a = bind (foldM f l1 a) (foldM f l2).
Proof.
  revert a. induction l1 as [|x l1 IH]; intros a; simpl; auto.
  destruct (f a x); simpl; auto.
Qed.

Lemma forEach_visited {A} (f : A -> jsstring -> jsstring -> completion A) a this :
  enumerable (secret this) ->
  forEach (Some f) a this
  = foldM (fun a nv => f a (snd nv) (fst nv)) (visited (secret this)) a.
Proof.
  intros H. unfold forEach, visited.
  rewrite for_in_own_enumerable by assumption.
  generalize (own_enum (secret this)) as l. intros l. revert a.
  induction l as [|[k vs] l IH]; intros a; simpl; auto.
  rewrite foldM_app.
  assert (E : foldM (fun a0 v => f a0 v k) vs a
              = foldM (fun a0 nv => f a0 (snd nv) (fst nv)) (map (pair k) vs) a).
  { clear. revert a. induction vs as [|v vs IH]; intros a; simpl; auto.
    destruct (f a v k); simpl; auto. }
  rewrite E. destruct (foldM _ (map (pair k) vs) a); simpl; auto.
Qed.

Lemma foldM_collect {A B} (f : A -> completion B) l acc :
  foldM (fun q x => bind (f x) (fun y => Normal (q ++ [y]))) l acc
  = bind (mapM f l) (fun ys => Normal (acc ++ ys)).
Proof.
  revert acc. induction l as [|x l IH]; intros acc; simpl.
  - now rewrite app_nil_r.
  - destruct (f x) as [y|e]; simpl; auto.
    rewrite IH. destruct (mapM f l); simpl; auto.
    now rewrite <- app_assoc.
Qed.

Lemma mapM_ext {A B} (f g : A -> completion B) l :
  (forall x, In x l -> f x = g x) -> mapM f l = mapM g l.
Proof.
  induction l as [|x l IH]; intros H; simpl; auto.
  rewrite H by now left. rewrite IH; auto. intros; apply H. now right.
Qed.

Lemma bind_collect {A B} (m : completion (list A)) (k : list A -> completion B) :
  bind (bind m (fun ys => Normal ([] ++ ys))) k = bind m k.
Proof. destruct m; reflexivity. Qed.

Lemma visited_well_formed o n v :
  well_formed_store o -> In (n, v) (visited o) -> well_formed n /\ well_formed v.
Proof.
  unfold well_formed_store, visited. intros Hwf Hin.
  apply in_flat_map in Hin. destruct Hin as [[k vs] [Hkv Hin]].
  apply in_map_iff in Hin. destruct Hin as [v' [[= <- <-] Hv]].
  rewrite Forall_forall in Hwf.
  destruct (Hwf (k, vs)) as [Hk Hvs].
  { eapply Permutation_in; [apply own_enum_perm|exact Hkv]. }
  split; auto. simpl in Hvs. rewrite Forall_forall in Hvs. auto.
Qed.

(** [toString] over the visited pairs. *)
Lemma toString_visited this :
  enumerable (secret this) ->
  toString this
  = bind (mapM (fun nv => bind (encodeURI (fst nv)) (fun n =>
                          bind (encodeURI (snd nv)) (fun v =>
                          Normal (n ++ js "=" ++ v))))
               (visited (secret this)))
         (fun segs => Normal (join (js "&") segs)).
Proof.
  intros H. unfold toString. rewrite forEach_visited by assumption. simpl.
  set (seg := fun nv : jsstring * jsstring =>
                bind (encodeURI (fst nv)) (fun n =>
                bind (encodeURI (snd nv)) (fun v =>
                Normal (n ++ js "=" ++ v)))).
  rewrite (foldM_ext _ (fun q x => bind (seg x) (fun y => Normal (q ++ [y])))).
  - rewrite foldM_collect. apply bind_collect.
  - intros q [n v] _. unfold seg. simpl.
    destruct (encodeURI n); simpl; auto.
    destruct (encodeURI v); reflexivity.
Qed.

(** C8.  [toString] joins with [&] the segments [name=value] of the
    pairs of [entries], name and value each percent-encoded, then with
    [! ' ( ) ~] re-encoded, [%20] replaced by [+] and [%00] by NUL; the
    empty collection gives the empty string; and the example of the
    documentation holds. *)
Theorem toString_joins_encoded_pairs :
  (forall this, well_formed_store (secret this) -> toString this = joined_segments this)
  /\ (forall str, well_formed str -> encodeURI str = encode_transform str)
  /\ toString empty = Normal []
  /\ bind (parse "name=pxy!fiy&version=1.0.0") toString
     = Normal (js "name=pxy%21fiy&version=1.0.0").
Proof.
  split; [|split; [apply encodeURI_transform|split; reflexivity]].
  intros this Hwf. unfold joined_segments.
  destruct (own (js "hasOwnProperty") (secret this)) eqn:E.
  - assert (Hs : ~ enumerable (secret this)) by (unfold enumerable; congruence).
    unfold toString, entries, forEach.
    now rewrite !for_in_own_shadowed by assumption.
  - rewrite entries_visited, toString_visited by assumption. simpl.
    rewrite (mapM_ext _ segment); [reflexivity|].
    intros [n v] Hin. unfold segment. simpl.
    destruct (visited_well_formed _ _ _ Hwf Hin) as [Hn Hv].
    now rewrite !encodeURI_transform by assumption.
Qed.

(** *** Decoding what the encode transform wrote *)

Ltac split_if :=
  match goal with
  | |- context [if ?b then _ else _] => destruct b eqn:?
  end.

Lemma in_range_true lo hi c : lo <= c <= hi -> in_range lo hi c = true.
Proof.
  intros H. unfold in_range. apply andb_true_iff. split; apply N.leb_le; lia.
Qed.

Lemma in_range_false lo hi c : c < lo \/ hi < c -> in_range lo hi c = false.
Proof.
  intros H. unfold in_range. apply andb_false_iff.
  destruct H; [left|right]; apply N.leb_gt; lia.
Qed.

Lemma hexval_hexdigit n : n < 16 -> hexval (hexdigit n) = Some n.
Proof.
  intros Hn. unfold hexval, hexdigit. destruct (n <? 10) eqn:E; bool_lia.
  - rewrite in_range_true by lia. f_equal. lia.
  - rewrite in_range_false by lia. rewrite in_range_true by lia. f_equal. lia.
Qed.

Lemma hexdigit_eqb x k :
  x < 16 -> k < 16 -> (hexdigit x =? hexdigit k) = (x =? k).
Proof.
  intros Hx Hk. unfold hexdigit.
  destruct (x <? 10) eqn:E1; destruct (k <? 10) eqn:E2; bool_lia;
    destruct (x =? k) eqn:E3; bool_lia; apply N.eqb_neq || apply N.eqb_eq; lia.
Qed.

Lemma escape_octet_is_space b :
  b < 256 -> (hexdigit (b / 16) =? 50) && (hexdigit (b mod 16) =? 48) = (b =? 32).
Proof.
  intros Hb. change 50 with (hexdigit 2). change 48 with (hexdigit 0).
  rewrite !hexdigit_eqb by lia.
  destruct (b =? 32) eqn:E; bool_lia.
  - apply andb_true_iff. split; apply N.eqb_eq; lia.
  - apply andb_false_iff.
    destruct (b / 16 =? 2) eqn:E1; [right|now left]. bool_lia.
    apply N.eqb_neq. lia.
Qed.

Lemma escape_octet_is_nul b :
  b < 256 -> (hexdigit (b / 16) =? 48) && (hexdigit (b mod 16) =? 48) = (b =? 0).
Proof.
  intros Hb. change 48 with (hexdigit 0).
  rewrite !hexdigit_eqb by lia.
  destruct (b =? 0) eqn:E; bool_lia.
  - apply andb_true_iff. split; apply N.eqb_eq; lia.
  - apply andb_false_iff.
    destruct (b / 16 =? 0) eqn:E1; [right|now left]. bool_lia.
    apply N.eqb_neq. lia.
Qed.

Lemma replace_matches_octets bs e :
  Forall (fun b => b < 256) bs ->
  replace_matches (flat_map escape_octet bs ++ e)
  = flat_map transformed_octet bs ++ replace_matches e.
Proof.
  induction 1 as [|b bs Hb Hbs IH]; [reflexivity|].
  change (flat_map escape_octet (b :: bs) ++ e)
    with (ch_percent :: hexdigit (b / 16) :: hexdigit (b mod 16)
          :: (flat_map escape_octet bs ++ e)).
  change (flat_map transformed_octet (b :: bs))
    with (transformed_octet b ++ flat_map transformed_octet bs).
  rewrite <- app_assoc, <- IH.
  generalize (flat_map escape_octet bs ++ e) as rest. intros rest.
  rewrite replace_matches_percent.
  rewrite escape_octet_is_space, escape_octet_is_nul by assumption.
  unfold transformed_octet.
  destruct (b =? 32); [reflexivity|].
  destruct (b =? 0); [reflexivity|].
  assert (H1 : hexchar (hexdigit (b / 16)) = true) by (apply hexdigit_hexchar; lia).
  assert (H2 : hexchar (hexdigit (b mod 16)) = true) by (apply hexdigit_hexchar; lia).
  destruct (hexchar_facts _ H1) as [P1 R1].
  destruct (hexchar_facts _ H2) as [P2 R2].
  rewrite !replace_matches_other by assumption.
  rewrite (reencode_other _ R1), (reencode_other _ R2). reflexivity.
Qed.

Lemma unescape_unfold c rest :
  unescape (c :: rest)
  = if c =? ch_percent then
      match rest with
      | h :: l :: rest' =>
          match hexval h, hexval l with
          | Some x, Some y => option_map (cons (Oct (16 * x + y))) (unescape rest')
          | _, _ => None
          end
      | _ => None
      end
    else option_map (cons (Lit c)) (unescape rest).
Proof. reflexivity. Qed.

Lemma unescape_octet b x :
  b < 256 -> b <> 32 ->
  unescape (transformed_octet b ++ x) = option_map (cons (octet_token b)) (unescape x).
Proof.
  intros Hb Hs. unfold transformed_octet, octet_token.
  rewrite (eqb_false_lia b 32) by assumption.
  destruct (b =? 0) eqn:E; [reflexivity|].
  unfold escape_octet. simpl app. rewrite unescape_unfold.
  change (ch_percent =? ch_percent) with true. cbv iota.
  rewrite !hexval_hexdigit by lia.
  replace (16 * (b / 16) + b mod 16) with b by lia. reflexivity.
Qed.

Lemma unescape_octets bs x :
  Forall (fun b => b < 256 /\ b <> 32) bs ->
  unescape (flat_map transformed_octet bs ++ x)
  = option_map (app (map octet_token bs)) (unescape x).
Proof.
  induction 1 as [|b bs [Hb Hs] Hbs IH]; simpl.
  - now destruct (unescape x).
  - rewrite <- app_assoc, unescape_octet, IH by assumption.
    now destruct (unescape x).
Qed.

Lemma remove_plus_octets bs :
  Forall (fun b => b < 256 /\ b <> 32) bs ->
  remove_plus (flat_map transformed_octet bs) = flat_map transformed_octet bs.
Proof.
  induction 1 as [|b bs [Hb Hs] Hbs IH]; simpl; auto.
  unfold remove_plus in *. rewrite filter_app, IH. f_equal.
  unfold transformed_octet. rewrite (eqb_false_lia b 32) by assumption.
  destruct (b =? 0); [reflexivity|].
  unfold escape_octet. simpl.
  assert (H1 : hexchar (hexdigit (b / 16)) = true) by (apply hexdigit_hexchar; lia).
  assert (H2 : hexchar (hexdigit (b mod 16)) = true) by (apply hexdigit_hexchar; lia).
  unfold hexchar, in_range, ch_plus, ch_percent in *.
  change (37 =? 43) with false. simpl.
  rewrite !eqb_false_lia by bool_lia. reflexivity.
Qed.

#[local] Arguments N.add : simpl never.
#[local] Arguments N.sub : simpl never.
#[local] Arguments N.mul : simpl never.
#[local] Arguments N.div : simpl never.
#[local] Arguments N.modulo : simpl never.

Lemma ltb_true a b : a < b -> (a <? b) = true.
Proof. intros. now apply N.ltb_lt. Qed.

Lemma ltb_false a b : b <= a -> (a <? b) = false.
Proof. intros. now apply N.ltb_ge. Qed.

Lemma utf8_decode_Oct b ts' :
  utf8_decode (Oct b :: ts')
  = if b <? 128 then option_map (cons b) (utf8_decode ts')
    else if b <? 192 then None
    else if b <? 224 then
      match ts' with
      | t1 :: ts2 =>
          match continuation t1 with
          | Some x1 =>
              let v := (b - 192) * 64 + x1 in
              if v <? 128 then None
              else option_map (app (code_units v)) (utf8_decode ts2)
          | None => None
          end
      | _ => None
      end
    else if b <? 240 then
      match ts' with
      | t1 :: t2 :: ts3 =>
          match continuation t1, continuation t2 with
          | Some x1, Some x2 =>
              let v := (b - 224) * 4096 + x1 * 64 + x2 in
              if (v <? 2048) || is_surrogate v then None
              else option_map (app (code_units v)) (utf8_decode ts3)
          | _, _ => None
          end
      | _ => None
      end
    else if b <? 248 then
      match ts' with
      | t1 :: t2 :: t3 :: ts4 =>
          match continuation t1, continuation t2, continuation t3 with
          | Some x1, Some x2, Some x3 =>
              let v := (b - 240) * 262144 + x1 * 4096 + x2 * 64 + x3 in
              if (v <? 65536) || (1114111 <? v) then None
              else option_map (app (code_units v)) (utf8_decode ts4)
          | _, _, _ => None
          end
      | _ => None
      end
    else None.
Proof. reflexivity. Qed.

Lemma continuation_Oct x : x < 64 -> continuation (Oct (128 + x)) = Some x.
Proof.
  intros Hx. unfold continuation. rewrite in_range_true by lia. f_equal. lia.
Qed.

Lemma octet_token_Oct b : b <> 0 -> octet_token b = Oct b.
Proof. intros Hb. unfold octet_token. now rewrite (eqb_false_lia b 0). Qed.

Lemma option_map_cons_app {A} (x : A) (o : option (list A)) :
  option_map (cons x) o = option_map (app [x]) o.
Proof. now destruct o. Qed.

Lemma utf8_decode_encode v ts :
  scalar v ->
  utf8_decode (map octet_token (utf8_encode v) ++ ts)
  = option_map (app (code_units v)) (utf8_decode ts).
Proof.
  intros [Hmax Hsur]. unfold utf8_encode.
  destruct (v <? 128) eqn:E1; bool_lia.
  { unfold code_units. rewrite (ltb_true v 65536) by lia.
    unfold octet_token. simpl map. destruct (v =? 0) eqn:E0; bool_lia.
    - subst v. simpl. apply option_map_cons_app.
    - simpl app. rewrite utf8_decode_Oct, (ltb_true v 128) by lia.
      apply option_map_cons_app. }
  destruct (v <? 2048) eqn:E2; bool_lia.
  { simpl map. rewrite !octet_token_Oct by lia. simpl app.
    rewrite utf8_decode_Oct.
    rewrite (ltb_false _ 128), (ltb_false _ 192), (ltb_true _ 224) by lia.
    rewrite continuation_Oct by lia. cbv zeta.
    replace ((192 + v / 64 - 192) * 64 + v mod 64) with v by lia.
    now rewrite (ltb_false v 128) by lia. }
  destruct (v <? 65536) eqn:E3; bool_lia.
  { simpl map. rewrite !octet_token_Oct by lia. simpl app.
    rewrite utf8_decode_Oct.
    rewrite (ltb_false _ 128), (ltb_false _ 192), (ltb_false _ 224),
      (ltb_true _ 240) by lia.
    rewrite !continuation_Oct by lia. cbv zeta.
    replace ((224 + v / 4096 - 224) * 4096 + (v / 64) mod 64 * 64 + v mod 64)
      with v by lia.
    rewrite (ltb_false v 2048) by lia. unfold is_surrogate.
    rewrite in_range_false by lia. reflexivity. }
  simpl map. rewrite !octet_token_Oct by lia. simpl app.
  rewrite utf8_decode_Oct.
  rewrite (ltb_false _ 128), (ltb_false _ 192), (ltb_false _ 224),
    (ltb_false _ 240), (ltb_true _ 248) by lia.
  rewrite !continuation_Oct by lia. cbv zeta.
  replace ((240 + v / 262144 - 240) * 262144 + (v / 4096) mod 64 * 4096
           + (v / 64) mod 64 * 64 + v mod 64) with v by lia.
  rewrite (ltb_false v 65536), (ltb_false 1114111 v) by lia. reflexivity.
Qed.

Lemma decodes_to_nil : decodes_to [] [].
Proof.
  split; [|split].
  - exists []. split; reflexivity.
  - constructor.
  - congruence.
Qed.

Lemma remove_plus_app a b : remove_plus (a ++ b) = remove_plus a ++ remove_plus b.
Proof. unfold remove_plus. apply filter_app. Qed.

Lemma decodes_to_block B toks u t s :
  remove_plus B = B ->
  (forall y, unescape (B ++ y) = option_map (app toks) (unescape y)) ->
  (forall ts, utf8_decode (toks ++ ts) = option_map (app u) (utf8_decode ts)) ->
  Forall safe B -> B <> [] ->
  decodes_to t s -> decodes_to (B ++ t) (u ++ s).
Proof.
  intros Hplus Hun Hdec Hsafe Hne [[ts [H1 H2]] [H3 H4]].
  split; [|split].
  - exists (toks ++ ts). rewrite remove_plus_app, Hplus, Hun, H1. split; auto.
    now rewrite Hdec, H2.
  - apply Forall_app. now split.
  - intros _. destruct B; [congruence|discriminate].
Qed.

Lemma uri_unescaped_cases c :
  uri_unescaped c = true ->
  48 <= c <= 57 \/ 65 <= c <= 90 \/ 97 <= c <= 122
  \/ c = 45 \/ c = 95 \/ c = 46 \/ c = 33 \/ c = 126 \/ c = 42
  \/ c = 39 \/ c = 40 \/ c = 41.
Proof.
  unfold uri_unescaped, alnum, uri_mark, in_range. simpl. intros H.
  rewrite orb_false_r in H. bool_lia.
Qed.

Lemma unescaped_block c t s :
  uri_unescaped c = true ->
  decodes_to t s -> decodes_to (reencode c ++ t) (c :: s).
Proof.
  intros Hc Ht. apply uri_unescaped_cases in Hc.
  assert (Hsp : forall h1 h2 x y, x < 16 ->
            reencode c = [37; h1; h2] -> hexval h1 = Some x ->
            hexval h2 = Some y -> c = 16 * x + y -> c < 128 ->
            h1 <> 43 -> h2 <> 43 -> safe h1 -> safe h2 ->
            decodes_to (reencode c ++ t) (c :: s)).
  { intros h1 h2 x y Hx Hre Hh1 Hh2 Hv Hlt N1 N2 S1 S2. rewrite Hre.
    apply (decodes_to_block [37; h1; h2] [Oct c] [c]); auto.
    - unfold remove_plus, ch_plus. simpl.
      change (37 =? 43) with false. simpl.
      now rewrite !eqb_false_lia by assumption.
    - intros y0. simpl app. rewrite unescape_unfold.
      change (37 =? ch_percent) with true. cbv iota. rewrite Hh1, Hh2.
      subst c. now destruct (unescape y0).
    - intros ts. simpl app. rewrite utf8_decode_Oct, (ltb_true c 128) by assumption.
      apply option_map_cons_app.
    - constructor; [split; discriminate|].
      constructor; [exact S1|]. constructor; [exact S2|constructor].
    - discriminate. }
  assert (special : c = 33 \/ c = 39 \/ c = 40 \/ c = 41 \/ c = 126
                    \/ (c =? 33) || (c =? 39) || (c =? 40) || (c =? 41) || (c =? 126) = false).
  { destruct (c =? 33) eqn:E1; [bool_lia; auto|].
    destruct (c =? 39) eqn:E2; [bool_lia; auto|].
    destruct (c =? 40) eqn:E3; [bool_lia; auto 6|].
    destruct (c =? 41) eqn:E4; [bool_lia; auto 6|].
    destruct (c =? 126) eqn:E5; [bool_lia; auto 6|]. auto 10. }
  destruct special as [->|[->|[->|[->|[->|Hn]]]]].
  - apply (Hsp 50 49 2 1); try reflexivity; try lia; split; discriminate.
  - apply (Hsp 50 55 2 7); try reflexivity; try lia; split; discriminate.
  - apply (Hsp 50 56 2 8); try reflexivity; try lia; split; discriminate.
  - apply (Hsp 50 57 2 9); try reflexivity; try lia; split; discriminate.
  - apply (Hsp 55 69 7 14); try reflexivity; try lia; split; discriminate.
  - rewrite (reencode_other c Hn). clear Hsp. bool_lia.
    apply (decodes_to_block [c] [Lit c] [c]); auto.
    + unfold remove_plus, ch_plus. simpl. now rewrite (eqb_false_lia c 43) by lia.
    + intros y. simpl app. rewrite unescape_unfold.
      unfold ch_percent. rewrite (eqb_false_lia c 37) by lia.
      now destruct (unescape y).
    + constructor; [split; unfold ch_amp, ch_eq; lia|constructor].
    + discriminate.
Qed.

Lemma utf8_encode_octets_no_space v :
  v < 2097152 -> v <> 32 -> Forall (fun b => b < 256 /\ b <> 32) (utf8_encode v).
Proof.
  intros Hv Hs. unfold utf8_encode.
  destruct (v <? 128) eqn:E1; [bool_lia; repeat constructor; lia|].
  destruct (v <? 2048) eqn:E2; [bool_lia; repeat constructor; lia|].
  destruct (v <? 65536) eqn:E3; bool_lia; repeat constructor; lia.
Qed.

Lemma transformed_octet_safe b :
  b < 256 -> b <> 32 -> Forall safe (transformed_octet b) /\ transformed_octet b <> [].
Proof.
  intros Hb Hs. unfold transformed_octet. rewrite (eqb_false_lia b 32) by assumption.
  destruct (b =? 0).
  - split; [repeat constructor; discriminate|discriminate].
  - unfold escape_octet. split; [|discriminate].
    assert (H1 : hexchar (hexdigit (b / 16)) = true) by (apply hexdigit_hexchar; lia).
    assert (H2 : hexchar (hexdigit (b mod 16)) = true) by (apply hexdigit_hexchar; lia).
    unfold hexchar, in_range in *.
    repeat constructor; unfold ch_amp, ch_eq, ch_percent; bool_lia.
Qed.

Lemma escaped_block v t s :
  scalar v -> v <> 32 ->
  decodes_to t s ->
  decodes_to (flat_map transformed_octet (utf8_encode v) ++ t) (code_units v ++ s).
Proof.
  intros Hv Hs Ht.
  assert (Hb : Forall (fun b => b < 256 /\ b <> 32) (utf8_encode v)).
  { apply utf8_encode_octets_no_space; auto. destruct Hv. lia. }
  apply (decodes_to_block _ (map octet_token (utf8_encode v))); auto.
  - now apply remove_plus_octets.
  - intros y. now apply unescape_octets.
  - intros ts. now apply utf8_decode_encode.
  - apply Forall_flat_map. eapply Forall_impl; [|exact Hb].
    intros b [H1 H2]. now apply transformed_octet_safe.
  - assert (Hne : utf8_encode v <> [])
      by (unfold utf8_encode; repeat split_if; discriminate).
    destruct (utf8_encode v) as [|b bs] eqn:E.
    + congruence.
    + inversion Hb as [|? ? [H1 H2] _]; subst. simpl.
      destruct (transformed_octet_safe b H1 H2) as [_ Hb1].
      destruct (transformed_octet b); [congruence|discriminate].
Qed.

(** Whatever [encodeURI] writes for a string without spaces, the decode
    rule of [append] reads back as that string. *)
Lemma encoded_value_decodes s e :
  well_formed s -> ~ In ch_space s ->
  encodeURIComponent s = Some e -> decodes_to (replace_matches e) s.
Proof.
  remember (List.length s) as n eqn:Hn.
  assert (Hle : (List.length s <= n)%nat) by lia. clear Hn.
  revert s e Hle. induction n as [|n IH]; intros s e Hle Hwf Hsp.
  - destruct s; [|simpl in Hle; lia]. intros [= <-]. apply decodes_to_nil.
  - destruct s as [|c rest]; [intros [= <-]; apply decodes_to_nil|].
    simpl in Hle. inversion Hwf as [|? ? Hc Hrest]; subst.
    assert (Hc32 : c <> 32) by (intros ->; apply Hsp; now left).
    assert (Hsp' : ~ In ch_space rest) by (intros H; apply Hsp; now right).
    rewrite encodeURIComponent_unfold.
    destruct (uri_unescaped c) eqn:U.
    + destruct (encodeURIComponent rest) as [e'|] eqn:E; [|discriminate].
      intros [= <-].
      rewrite replace_matches_other by now apply uri_unescaped_not_percent.
      apply unescaped_block; auto. apply (IH rest); auto. lia.
    + destruct (in_range 56320 57343 c) eqn:L; [discriminate|].
      destruct (in_range 55296 56319 c) eqn:H.
      * destruct rest as [|d rest']; [discriminate|].
        destruct (in_range 56320 57343 d) eqn:D; [|discriminate].
        destruct (encodeURIComponent rest') as [e'|] eqn:E; [|discriminate].
        intros [= <-]. unfold escape, in_range in *. bool_lia.
        set (v := (c - 55296) * 1024 + (d - 56320) + 65536).
        rewrite replace_matches_octets by (apply utf8_encode_octets; unfold v; lia).
        replace (c :: d :: rest') with (code_units v ++ rest').
        -- apply escaped_block.
           ++ unfold scalar, v. lia.
           ++ unfold v. lia.
           ++ inversion Hrest; subst. apply (IH rest'); auto.
              ** simpl in Hle. lia.
              ** intros Hin. apply Hsp'. now right.
        -- unfold code_units. rewrite (ltb_false v 65536) by (unfold v; lia).
           simpl. f_equal; [|f_equal]; unfold v; lia.
      * destruct (encodeURIComponent rest) as [e'|] eqn:E; [|discriminate].
        intros [= <-]. unfold escape, in_range, code_unit in *.
        rewrite replace_matches_octets by (apply utf8_encode_octets; lia).
        replace (c :: rest) with (code_units c ++ rest).
        -- apply escaped_block; auto.
           ++ unfold scalar. bool_lia.
           ++ apply (IH rest); auto. lia.
        -- unfold code_units. now rewrite (ltb_true c 65536) by lia.
Qed.

Lemma stable_char_cases c :
  stable_char c = true ->
  48 <= c <= 57 \/ 65 <= c <= 90 \/ 97 <= c <= 122
  \/ c = 45 \/ c = 95 \/ c = 46 \/ c = 42.
Proof.
  unfold stable_char, alnum, in_range. intros H. bool_lia.
Qed.

Lemma stable_char_unescaped c : stable_char c = true -> uri_unescaped c = true.
Proof.
  intros H. apply stable_char_cases in H.
  unfold uri_unescaped, alnum, uri_mark, in_range. simpl.
  destruct H as [H|[H|[H|H]]].
  - rewrite (proj2 (N.leb_le 48 c)), (proj2 (N.leb_le c 57)) by lia. reflexivity.
  - rewrite (proj2 (N.leb_le 65 c)), (proj2 (N.leb_le c 90)) by lia.
    simpl. now rewrite !orb_true_r.
  - rewrite (proj2 (N.leb_le 97 c)), (proj2 (N.leb_le c 122)) by lia.
    simpl. now rewrite !orb_true_r.
  - destruct H as [->|[->|[->| ->]]]; reflexivity.
Qed.

Lemma encodeURI_stable n : stable_name n = true -> encodeURI n = Normal n.
Proof.
  unfold stable_name, encodeURI. intros H.
  assert (E : encodeURIComponent n = Some n /\ replace_matches n = n).
  { induction n as [|c n IH]; [split; reflexivity|].
    simpl in H. apply andb_true_iff in H. destruct H as [Hc Hn].
    destruct (IH Hn) as [IH1 IH2]. split.
    - rewrite encodeURIComponent_unfold, (stable_char_unescaped c Hc).
      now rewrite IH1.
    - apply stable_char_cases in Hc.
      rewrite replace_matches_other by (unfold ch_percent; lia).
      rewrite reencode_other, IH2; auto.
      rewrite !eqb_false_lia by lia. reflexivity. }
  destruct E as [E1 E2]. rewrite E1. simpl. now rewrite E2.
Qed.

(** *** Splitting what [join] joined *)

Lemma split_app sep a b :
  ~ In sep a -> JS.split sep (a ++ sep :: b) = a :: JS.split sep b.
Proof.
  induction a as [|c a IH]; intros Hn; simpl.
  - now rewrite N.eqb_refl.
  - rewrite (eqb_false_lia c sep) by (intros ->; apply Hn; now left).
    rewrite IH; auto. intros H. apply Hn. now right.
Qed.

Lemma split_none sep a : ~ In sep a -> JS.split sep a = [a].
Proof.
  induction a as [|c a IH]; intros Hn; simpl; auto.
  rewrite (eqb_false_lia c sep) by (intros ->; apply Hn; now left).
  rewrite IH; auto. intros H. apply Hn. now right.
Qed.

Lemma split_join sep segs :
  segs <> [] -> Forall (fun seg => ~ In sep seg) segs ->
  JS.split sep (join [sep] segs) = segs.
Proof.
  intros Hne Hall. induction Hall as [|x l Hx Hl IH]; [congruence|].
  destruct l as [|y l].
  - simpl. now apply split_none.
  - change (join [sep] (x :: y :: l)) with (x ++ sep :: join [sep] (y :: l)).
    rewrite split_app by assumption. f_equal. apply IH. discriminate.
Qed.

Lemma pair_of_segment n ev :
  ~ In ch_eq n -> ~ In ch_eq ev -> pair_of (n ++ js "=" ++ ev) = (n, Str ev).
Proof.
  intros Hn Hev. unfold pair_of.
  change (n ++ js "=" ++ ev) with (n ++ ch_eq :: ev).
  rewrite split_app, split_none by assumption. reflexivity.
Qed.

(** *** Appending a decoded value *)

Lemma put_put n v w o : put n v (put n w o) = put n v o.
Proof.
  induction o as [|[k x] o IH]; simpl.
  - now rewrite eqb_str_refl.
  - destruct (eqb_str k n) eqn:E; simpl; rewrite E; auto. now rewrite IH.
Qed.

Lemma put_new n v o : own n o = None -> put n v o = o ++ [(n, v)].
Proof.
  induction o as [|[k x] o IH]; simpl; auto.
  destruct (eqb_str k n); [discriminate|]. intros H. now rewrite IH.
Qed.

Lemma own_app_new n o vs : own n o = None -> own n (o ++ [(n, vs)]) = Some vs.
Proof.
  induction o as [|[k x] o IH]; simpl.
  - now rewrite eqb_str_refl.
  - destruct (eqb_str k n); [discriminate|]. auto.
Qed.

Lemma put_last n v o vs : own n o = None -> put n v (o ++ [(n, vs)]) = o ++ [(n, v)].
Proof.
  induction o as [|[k x] o IH]; simpl.
  - now rewrite eqb_str_refl.
  - destruct (eqb_str k n); [discriminate|]. intros H. now rewrite IH.
Qed.

Lemma is_empty_false s : s <> [] -> is_empty s = false.
Proof. destruct s; [congruence|reflexivity]. Qed.

Lemma append_decoded n ev v this :
  n <> [] -> ev <> [] -> inherits (secret_prototype this) n = false ->
  decode_value ev = Some v ->
  append n (Str ev) this
  = (mk (add_value (secret this) (n, v)) (secret_prototype this),
     Normal ReturnsUndefined).
Proof.
  intros Hn Hev Hp Hd. unfold append, add_value.
  rewrite (is_empty_false n Hn). destruct ev as [|c ev]; [congruence|].
  cbn [falsy as_array fst snd orb].
  destruct (own n (secret this)) as [vs|] eqn:E.
  - rewrite (proj2 (secret_at_own n vs this) E). cbn [falsy_member].
    rewrite (push_all_own_cons _ _ _ _ _ E), Hd. reflexivity.
  - assert (Hat : secret_at n this = Absent)
      by (now apply lookup_not_inherited).
    rewrite Hat. cbn [falsy_member].
    rewrite secret_assign_other by (eapply not_inherited_not_proto; eauto).
    erewrite push_all_own_cons by (simpl; apply own_put_same).
    rewrite Hd. simpl. now rewrite put_put.
Qed.

(** *** The guard of [append] and what gets past it *)

(** C1.  A pair without a value, [name=] or a bare [name], reaches
    [append] with the empty string as value, and the guard of [append]
    returns at once: nothing is stored.  After
    [new URLSearch('?name=pxy&version=')], [get('version')] is null and
    [has('version')] is false. *)
Theorem constructor_drops_empty_value :
  (forall n, ~ In ch_eq n ->
     pair_of (n ++ js "=") = (n, Str []) /\ pair_of n = (n, Str []))
  /\ (forall n this, append n (Str []) this = (this, Normal ReturnsThis))
  /\ exists c, parse "?name=pxy&version=" = Normal c
               /\ get (js "version") c = Null
               /\ has (js "version") c = false
               /\ get (js "name") c = StringValue (js "pxy").
Proof.
  split; [|split].
  - intros n Hn. split.
    + replace (n ++ js "=") with (n ++ js "=" ++ []) by reflexivity.
      apply pair_of_segment; auto.
    + unfold pair_of. now rewrite split_none.
  - intros n this. unfold append. simpl. now rewrite orb_true_r.
  - eexists. repeat split; reflexivity.
Qed.

(** C2.  [append] stores each value with every [+] deleted and the
    escapes decoded; the decode rule of the format turns [+] into a
    space.  After [append('a', 'x+y')], [getAll('a')] is [['xy']]. *)
Theorem append_deletes_plus :
  (forall name val d this,
     name <> [] -> val <> [] -> inherits (secret_prototype this) name = false ->
     decodeURIComponent (remove_plus val) = Some d ->
     getAll name (fst (append name (Str val) this))
     = Normal (Arr (stored name this ++ [d])))
  /\ getAll (js "a") (fst (append (js "a") (Str (js "x+y")) empty))
     = Normal (Arr [js "xy"])
  /\ form_decode (js "x+y") = Some (js "x y")
  /\ decode_value (js "x+y") = Some (js "xy").
Proof.
  split; [|repeat split; reflexivity].
  intros name val d this Hn Hv Hp Hd.
  rewrite (append_decoded name val d) by assumption.
  unfold getAll, has, secret_at, add_value, stored. simpl.
  rewrite has_property_own, own_put_same.
  now rewrite (lookup_own _ _ _ _ (own_put_same _ _ _)).
Qed.

(** C3.  [append(name, [])] passes the guard and creates the property
    before the loop over no values: for a name that is not there yet,
    an empty sequence is stored, and [has], [get] and [keys] change. *)
Theorem append_empty_array_creates_entry :
  (forall name this,
     name <> [] -> has name this = false ->
     secret (fst (append name (Arr []) this)) = secret this ++ [(name, [])]
     /\ has name (fst (append name (Arr []) this)) = true
     /\ get name (fst (append name (Arr []) this)) = Undef)
  /\ secret (fst (append (js "a") (Arr []) empty)) = [(js "a", [])]
  /\ keys empty = Normal []
  /\ keys (fst (append (js "a") (Arr []) empty)) = Normal [js "a"].
Proof.
  split; [|repeat split; reflexivity].
  intros name this Hn Hhas.
  assert (Ho : own name (secret this) = None /\ name <> proto_name).
  { unfold has in Hhas. rewrite has_property_own in Hhas.
    destruct (own name (secret this)); [discriminate|]. split; auto.
    eapply not_inherited_not_proto; eauto. }
  destruct Ho as [Ho Hp].
  unfold append. rewrite (is_empty_false name Hn). simpl.
  rewrite (proj2 (secret_at_absent name this) Hhas). simpl.
  rewrite secret_assign_other by assumption.
  unfold get, has, secret_at. simpl.
  rewrite has_property_own, own_put_same.
  rewrite (lookup_own _ _ _ _ (own_put_same _ _ _)).
  split; [now apply put_new|]. split; reflexivity.
Qed.

Lemma add_values_last k ws vs acc :
  own k acc = None ->
  fold_left add_value (map (pair k) vs) (acc ++ [(k, ws)]) = acc ++ [(k, ws ++ vs)].
Proof.
  intros Hk. revert ws. induction vs as [|v vs IH]; intros ws; simpl.
  - now rewrite app_nil_r.
  - unfold add_value at 2. simpl. rewrite own_app_new, put_last by assumption.
    rewrite IH. now rewrite <- app_assoc.
Qed.

Lemma add_values_new k vs acc :
  own k acc = None ->
  fold_left add_value (map (pair k) vs) acc
  = acc ++ filter has_values [(k, vs)].
Proof.
  intros Hk. destruct vs as [|v vs]; simpl.
  - now rewrite app_nil_r.
  - unfold add_value at 2. simpl. rewrite Hk, put_new by assumption.
    simpl. now rewrite add_values_last.
Qed.

Lemma own_app_None n a b : own n (a ++ b) = None <-> own n a = None /\ own n b = None.
Proof.
  induction a as [|[k x] a IH]; simpl; [tauto|].
  destruct (eqb_str k n); [|exact IH]. split; [discriminate|]. now intros [? _].
Qed.

(** Pushing the pairs of [l] one by one rebuilds [l], up to the names
    without values. *)
Lemma add_values_rebuild l acc :
  NoDup (map fst l) ->
  (forall k, In k (map fst l) -> own k acc = None) ->
  fold_left add_value (pairs_of l) acc = acc ++ filter has_values l.
Proof.
  revert acc. induction l as [|[k vs] l IH]; intros acc Hnd Hacc; simpl.
  - now rewrite app_nil_r.
  - inversion Hnd as [|? ? Hk Hnd']; subst.
    unfold pairs_of in *. simpl. rewrite fold_left_app.
    rewrite add_values_new by (apply Hacc; now left).
    rewrite IH; auto.
    + rewrite <- app_assoc. f_equal. simpl.
      destruct (has_values (k, vs)); reflexivity.
    + intros k' Hk'. apply own_app_None. split; [apply Hacc; now right|].
      simpl. destruct (has_values (k, vs)); simpl; auto.
      destruct (eqb_str k k') eqn:E; auto. apply eqb_str_eq in E. now subst.
Qed.

(** *** An enumeration is its own enumeration *)

Lemma index_entries_map_snd (X : list (N * (jsstring * list jsstring))) :
  Forall (fun p => array_index (fst (snd p)) = Some (fst p)) X ->
  index_entries (map snd X) = X.
Proof.
  unfold index_entries.
  induction 1 as [|[i kv] X Hx HX IH]; simpl; auto.
  simpl in Hx. rewrite Hx, IH. reflexivity.
Qed.

Lemma index_entries_none R :
  Forall (fun kv => is_index (fst kv) = false) R -> index_entries R = [].
Proof.
  unfold index_entries, is_index.
  induction 1 as [|kv R Hkv HR IH]; simpl; auto.
  destruct (array_index (fst kv)); [discriminate|]. exact IH.
Qed.

Lemma filter_all {A} (p : A -> bool) l : Forall (fun x => p x = true) l -> filter p l = l.
Proof.
  induction 1 as [|x l Hx Hl IH]; simpl; auto. now rewrite Hx, IH.
Qed.

Lemma filter_none {A} (p : A -> bool) l : Forall (fun x => p x = false) l -> filter p l = [].
Proof.
  induction 1 as [|x l Hx Hl IH]; simpl; auto. now rewrite Hx.
Qed.

Lemma filter_map_snd {A B} (p : B -> bool) (X : list (A * B)) :
  filter p (map snd X) = map snd (filter (fun x => p (snd x)) X).
Proof.
  induction X as [|x X IH]; simpl; auto.
  destruct (p (snd x)); simpl; now rewrite IH.
Qed.

Lemma Forall_filter {A} (P : A -> Prop) (p : A -> bool) l :
  Forall P l -> Forall P (filter p l).
Proof.
  induction 1 as [|x l Hx Hl IH]; simpl; auto. destruct (p x); auto.
Qed.

Lemma own_enum_filter p o :
  own_enum (filter p (own_enum o)) = filter p (own_enum o).
Proof.
  unfold own_enum at 2 3. rewrite filter_app, filter_map_snd.
  set (X := filter (fun x => p (snd x)) (sort_by leb_fst (index_entries o))).
  set (R := filter p (filter (fun kv => negb (is_index (fst kv))) o)).
  assert (HX : Forall (fun x => array_index (fst (snd x)) = Some (fst x)) X).
  { apply Forall_filter. eapply Permutation_Forall.
    - symmetry. apply (sort_by_perm leb_fst).
    - apply index_entries_spec. }
  assert (HR : Forall (fun kv => is_index (fst kv) = false) R).
  { apply Forall_filter. apply Forall_forall. intros kv Hkv.
    apply filter_In in Hkv. destruct Hkv as [_ Hkv].
    now destruct (is_index (fst kv)). }
  assert (HS : Sorted (fun a b => leb_fst a b = true) X).
  { apply StronglySorted_Sorted, StronglySorted_filter.
    apply Sorted_StronglySorted.
    - intros a b c. unfold leb_fst. rewrite !N.leb_le. lia.
    - apply sort_by_sorted. intros a b. apply leb_fst_total. }
  unfold own_enum. unfold index_entries at 1. rewrite flat_map_app.
  fold (index_entries (map snd X)). fold (index_entries R).
  rewrite index_entries_map_snd, index_entries_none by assumption.
  rewrite app_nil_r, (sort_by_fixed leb_fst X HS).
  f_equal. rewrite filter_app.
  rewrite (filter_none _ (map snd X)), (filter_all _ R); auto.
  - eapply Forall_impl; [|exact HR]. intros kv H. simpl. now rewrite H.
  - apply Forall_map. eapply Forall_impl; [|exact HX].
    intros x H. simpl. unfold is_index. now rewrite H.
Qed.

Lemma pairs_of_has_values l : pairs_of (filter has_values l) = pairs_of l.
Proof.
  unfold pairs_of. induction l as [|[k vs] l IH]; simpl; auto.
  unfold has_values at 1. simpl. destruct vs; simpl; auto. now rewrite IH.
Qed.

Lemma visited_pairs o : visited o = pairs_of (own_enum o).
Proof. reflexivity. Qed.

(** The store rebuilt from the visited pairs visits the same pairs. *)
Lemma visited_rebuilt o :
  visited (filter has_values (own_enum o)) = visited o.
Proof.
  rewrite !visited_pairs, own_enum_filter. apply pairs_of_has_values.
Qed.

(** *** From a collection to its string and back *)

Lemma portable_value_encoded v :
  portable_value v = true ->
  encodeURI v = Normal (encoded v)
  /\ decode_value (encoded v) = Some v
  /\ Forall safe (encoded v)
  /\ encoded v <> [].
Proof.
  unfold portable_value, encodable, encodeURI, encoded. intros H.
  apply andb_true_iff in H. destruct H as [H He].
  apply andb_true_iff in H. destruct H as [Hne Hall].
  destruct (encodeURIComponent v) as [e|] eqn:E; [|discriminate]. simpl.
  assert (Hd : decodes_to (replace_matches e) v).
  { apply encoded_value_decodes; auto.
    - apply Forall_forall. intros c Hc.
      rewrite forallb_forall in Hall. specialize (Hall c Hc).
      unfold code_unit. bool_lia.
    - intros Hin. rewrite forallb_forall in Hall. specialize (Hall _ Hin).
      apply andb_true_iff in Hall. destruct Hall as [_ Hs].
      now rewrite N.eqb_refl in Hs. }
  destruct Hd as [[ts [H1 H2]] [H3 H4]].
  split; [reflexivity|]. split; [|split; auto].
  - unfold decode_value, decodeURIComponent. now rewrite H1.
  - apply H4. destruct v; [discriminate|discriminate].
Qed.

Lemma stable_name_chars n c :
  stable_name n = true -> In c n ->
  c <> ch_amp /\ c <> ch_eq /\ c <> ch_question.
Proof.
  unfold stable_name. intros H Hc. rewrite forallb_forall in H.
  specialize (H c Hc). apply stable_char_cases in H.
  unfold ch_amp, ch_eq, ch_question. lia.
Qed.

(** The names a constructor stores are distinct, not empty, and no
    members of [Object.prototype]. *)
Lemma constructor_names query c :
  constructor query = Normal c ->
  NoDup (map fst (secret c))
  /\ Forall (fun n => plain n /\ n <> []) (map fst (secret c))
  /\ secret_prototype c = ObjectPrototype.
Proof.
  intros Hrun. apply constructor_perform_all in Hrun.
  apply perform_all_names in Hrun; [|apply constructor_calls_ok|reflexivity].
  destruct Hrun as [Hrun Hproto]. split; [|split; [|exact Hproto]];
    rewrite Hrun; simpl.
  - apply fold_first_seen_NoDup. constructor.
  - unfold constructor_calls.
    generalize (match query with
                | QString q => map pair_of (JS.split ch_amp (strip_question q))
                | QArray l => l
                | QObject l => l
                | QOther => []
                end) as l.
    intros l. generalize (@nil jsstring) (Forall_nil (fun n => plain n /\ n <> [])).
    induction l as [|[n values] l IH]; intros names Hnames; simpl; auto.
    apply IH.
    destruct (is_empty n) eqn:En; simpl; auto.
    destruct (falsy values); simpl; auto.
    destruct (inherited n) eqn:I; simpl.
    + unfold see. destruct (seen n names); simpl; auto.
    + unfold see. destruct (seen n names); auto.
      apply Forall_app. split; auto. constructor; [|constructor].
      split; [exact I|]. intros ->. discriminate.
Qed.

Lemma plain_names_enumerable o :
  Forall (fun n => plain n /\ n <> []) (map fst o) -> enumerable o.
Proof.
  intros H. unfold enumerable. apply own_None_In. intros Hin.
  rewrite Forall_forall in H. destruct (H _ Hin) as [Hp _].
  unfold plain in Hp. discriminate.
Qed.

Lemma mapM_normal {A B} (f : A -> completion B) (g : A -> B) l :
  (forall x, In x l -> f x = Normal (g x)) -> mapM f l = Normal (map g l).
Proof.
  induction l as [|x l IH]; intros H; simpl; auto.
  rewrite H by now left. simpl. rewrite IH; auto. intros; apply H. now right.
Qed.

Lemma append_each_decoded E this :
  secret_prototype this = ObjectPrototype ->
  Forall (fun nv => fst nv <> [] /\ plain (fst nv) /\ encoded (snd nv) <> []
                    /\ decode_value (encoded (snd nv)) = Some (snd nv)) E ->
  append_each (map (fun nv => (fst nv, Str (encoded (snd nv)))) E) this
  = Normal (mk (fold_left add_value E (secret this)) ObjectPrototype).
Proof.
  intros Hproto H. revert this Hproto.
  induction H as [|[n v] E (Hn & Hp & He & Hd) HE IH]; intros this Hproto; simpl.
  - destruct this. simpl in *. now subst.
  - simpl in *.
    assert (Hi : inherits (secret_prototype this) n = false)
      by now rewrite Hproto, inherits_object.
    rewrite (append_decoded n (encoded v) v) by assumption.
    now rewrite IH.
Qed.

Lemma join_cons sep x l : exists t, join sep (x :: l) = x ++ t.
Proof.
  destruct l as [|y l]; simpl.
  - exists []. now rewrite app_nil_r.
  - eexists. reflexivity.
Qed.

Lemma visited_In o n v :
  In (n, v) (visited o) -> exists vs, In (n, vs) o /\ In v vs.
Proof.
  unfold visited. intros H. apply in_flat_map in H.
  destruct H as [[k vs] [Hkv Hin]]. apply in_map_iff in Hin.
  destruct Hin as [v' [[= <- <-] Hv]]. exists vs. split; auto.
  eapply Permutation_in; [apply own_enum_perm|exact Hkv].
Qed.

(** X16.  Take a query string the constructor accepts.  If every name
    it stores is made of letters, digits and [- _ . *], and every value
    it stores is non-empty and has no space and no lone surrogate, then
    [toString] completes, the constructor accepts its result, and the
    collection so obtained has the same [entries()]: the same pairs in
    the same order. *)
Theorem collection_round_trip (q : jsstring) (c : URLSearch) :
  constructor (QString q) = Normal c ->
  forallb round_trips (secret c) = true ->
  exists s c' es,
    toString c = Normal s
    /\ constructor (QString s) = Normal c'
    /\ entries c = Normal es
    /\ entries c' = Normal es.
Proof.
  intros Hc Hok.
  destruct (constructor_names _ _ Hc) as (Hnd & Hnames & Hproto).
  assert (Henum : enumerable (secret c)) by now apply plain_names_enumerable.
  set (o := secret c) in *.
  assert (Hpairs : forall n v, In (n, v) (visited o) ->
            stable_name n = true /\ portable_value v = true
            /\ plain n /\ n <> []).
  { intros n v Hin. apply visited_In in Hin. destruct Hin as [vs [Hkv Hv]].
    rewrite forallb_forall in Hok. specialize (Hok _ Hkv).
    unfold round_trips in Hok. apply andb_true_iff in Hok.
    destruct Hok as [Hn Hvs]. simpl in *.
    rewrite forallb_forall in Hvs.
    rewrite Forall_forall in Hnames.
    destruct (Hnames n) as [Hp Hne].
    { apply in_map_iff. now exists (n, vs). }
    auto. }
  assert (Hstr : toString c = Normal (join (js "&") (map segment_of (visited o)))).
  { rewrite toString_visited by assumption. fold o.
    rewrite (mapM_normal _ segment_of); [reflexivity|].
    intros [n v] Hin. destruct (Hpairs n v Hin) as (Hn & Hv & _).
    destruct (portable_value_encoded v Hv) as [Hev _]. simpl.
    now rewrite (encodeURI_stable n Hn), Hev. }
  exists (join (js "&") (map segment_of (visited o))).
  destruct (visited o) as [|[n1 v1] E] eqn:HE.
  { exists empty, []. repeat split; auto.
    rewrite entries_visited by assumption. fold o. now rewrite HE. }
  rewrite <- HE in *.
  exists (mk (filter has_values (own_enum o)) ObjectPrototype), (visited o).
  split; [exact Hstr|].
  split; [|split].
  - unfold constructor.
    assert (Hq : strip_question (join (js "&") (map segment_of (visited o)))
                 = join (js "&") (map segment_of (visited o))).
    { rewrite HE. simpl map.
      destruct (join_cons (js "&") (segment_of (n1, v1)) (map segment_of E)) as [t Ht].
      rewrite Ht. unfold segment_of. simpl fst.
      destruct (Hpairs n1 v1) as (Hn & _ & _ & Hne); [rewrite HE; now left|].
      destruct n1 as [|c1 n1]; [congruence|]. simpl.
      destruct (stable_name_chars _ c1 Hn) as (_ & _ & Hc1); [now left|].
      now rewrite (eqb_false_lia c1 ch_question). }
    rewrite Hq. change (js "&") with [ch_amp].
    rewrite split_join.
    + rewrite map_map.
      rewrite (map_ext_in _ (fun nv => (fst nv, Str (encoded (snd nv))))).
      * rewrite append_each_decoded; [|reflexivity|].
        -- f_equal. f_equal. simpl.
           rewrite visited_pairs. rewrite add_values_rebuild; auto.
           eapply Permutation_NoDup; [|exact Hnd].
           apply Permutation_map. symmetry. apply own_enum_perm.
        -- apply Forall_forall. intros [n v] Hin.
           destruct (Hpairs n v Hin) as (Hn & Hv & Hp & Hne).
           destruct (portable_value_encoded v Hv) as (_ & Hd & _ & He).
           simpl. auto.
      * intros [n v] Hin. destruct (Hpairs n v Hin) as (Hn & Hv & _).
        destruct (portable_value_encoded v Hv) as (_ & _ & Hs & _).
        unfold segment_of. simpl. apply pair_of_segment.
        -- intros H. now destruct (stable_name_chars _ _ Hn H) as (_ & ? & _).
        -- intros H. rewrite Forall_forall in Hs. now destruct (Hs _ H).
    + rewrite HE. discriminate.
    + apply Forall_map. apply Forall_forall. intros [n v] Hin.
      destruct (Hpairs n v Hin) as (Hn & Hv & _).
      destruct (portable_value_encoded v Hv) as (_ & _ & Hs & _).
      unfold segment_of. simpl. intros H.
      apply in_app_or in H. destruct H as [H|[H|H]].
      * now destruct (stable_name_chars _ _ Hn H) as (? & _).
      * discriminate.
      * rewrite Forall_forall in Hs. now destruct (Hs _ H).
  - now rewrite entries_visited by assumption.
  - rewrite entries_visited.
    + simpl. now rewrite visited_rebuilt.
    + simpl. apply plain_names_enumerable.
      apply Forall_forall. intros n Hn. rewrite Forall_forall in Hnames.
      apply Hnames. apply in_map_iff in Hn. destruct Hn as [kv [<- Hkv]].
      apply filter_In in Hkv. destruct Hkv as [Hkv _].
      apply in_map. eapply Permutation_in; [apply own_enum_perm|exact Hkv].
Qed.

Lemma collection_round_trip_witness :
  exists c s c' es,
    parse "b=x%21y&a=1&b=%C3%A9&2=%F0%9F%98%80&a=%2B" = Normal c
    /\ toString c = Normal s
    /\ constructor (QString s) = Normal c'
    /\ entries c = Normal es
    /\ entries c' = Normal es.
Proof.
  destruct (collection_round_trip
              (js "b=x%21y&a=1&b=%C3%A9&2=%F0%9F%98%80&a=%2B") _ eq_refl eq_refl)
    as (s & c' & es & Hs & Hc' & He & He').
  eexists. exists s, c', es. split; [reflexivity|]. auto.
Defined.

(** C4.  The round trip through [toString] and the constructor does
    not give the pairs back.  The constructor decodes the value of a
    pair and keeps its name as it is written, while [toString] encodes
    the name as it encodes the value: a name with a character that the
    encode transform escapes comes back changed.  After
    [new URLSearch('a!=1')], [toString()] is ['a%21=1'], and the
    constructor reads that as the name ['a%21']. *)
Theorem round_trip_changes_name :
  (forall n v d,
     n <> [] -> plain n -> hd_error n <> Some ch_question ->
     ~ In ch_amp (n ++ v) -> ~ In ch_eq (n ++ v) ->
     v <> [] -> decode_value v = Some d ->
     constructor (QString (n ++ js "=" ++ v))
     = Normal (mk [(n, [d])] ObjectPrototype))
  /\ (forall n d,
        plain n ->
        toString (mk [(n, [d])] ObjectPrototype)
        = bind (encodeURI n) (fun en =>
          bind (encodeURI d) (fun ed => Normal (en ++ js "=" ++ ed))))
  /\ exists c c',
       parse "a!=1" = Normal c
       /\ toString c = Normal (js "a%21=1")
       /\ parse "a%21=1" = Normal c'
       /\ entries c = Normal [(js "a!", js "1")]
       /\ entries c' = Normal [(js "a%21", js "1")].
Proof.
  split; [|split].
  - intros n v d Hn Hp Hq Hamp Heq Hv Hd. unfold constructor.
    assert (Hs : strip_question (n ++ js "=" ++ v) = n ++ js "=" ++ v).
    { destruct n as [|c n]; [congruence|]. simpl.
      destruct (c =? ch_question) eqn:E; auto.
      apply N.eqb_eq in E. subst c. now destruct Hq. }
    rewrite Hs. rewrite in_app_iff in Hamp, Heq.
    rewrite split_none.
    + cbn [map]. rewrite pair_of_segment by tauto. cbn [append_each].
      rewrite (append_decoded n v d); auto.
      simpl. now rewrite inherits_object.
    + rewrite !in_app_iff. simpl. unfold ch_amp in *. intuition discriminate.
  - intros n d Hp.
    assert (He : enumerable [(n, [d])]).
    { unfold enumerable. simpl.
      destruct (eqb_str n (js "hasOwnProperty")) eqn:E; auto.
      apply eqb_str_eq in E. subst n. discriminate. }
    rewrite toString_visited by exact He.
    assert (Hv : visited [(n, [d])] = [(n, d)]).
    { unfold visited, own_enum, index_entries, is_index. simpl.
      destruct (array_index n); reflexivity. }
    simpl secret. rewrite Hv. simpl.
    destruct (encodeURI n); simpl; auto.
    destruct (encodeURI d); reflexivity.
  - do 2 eexists. repeat split; reflexivity.
Qed.


(** *** What [append] changes *)

Lemma decode_all_decoded vals ds : decode_all vals = Some ds -> decoded vals = ds.
Proof.
  revert ds. induction vals as [|v vals IH]; intros ds; simpl.
  - now intros [= <-].
  - unfold decoded in *. simpl.
    destruct (decode_value v); [|discriminate].
    destruct (decode_all vals) as [ds'|]; [|discriminate].
    intros [= <-]. simpl. f_equal. now apply IH.
Qed.


Lemma put_same n vs o : own n o = Some vs -> put n vs o = o.
Proof.
  induction o as [|[k w] o IH]; simpl; [discriminate|].
  destruct (eqb_str k n) eqn:E; [congruence|]. intros H. now rewrite IH.
Qed.

Lemma push_all_decoded n vals this vs ds :
  own n (secret this) = Some vs -> decode_all vals = Some ds ->
  push_all n vals this
  = (mk (put n (vs ++ ds) (secret this)) (secret_prototype this),
     Normal ReturnsUndefined).
Proof.
  revert this vs ds. induction vals as [|v vals IH]; intros this vs ds Ho.
  - simpl. intros [= <-]. rewrite app_nil_r, put_same by assumption.
    now destruct this.
  - rewrite (push_all_own_cons _ _ _ _ _ Ho). simpl.
    destruct (decode_value v) as [d|]; [|discriminate].
    destruct (decode_all vals) as [ds'|] eqn:D; [|discriminate].
    intros [= <-].
    rewrite (IH _ (vs ++ [d]) ds') by (simpl; auto using own_put_same).
    simpl. now rewrite put_put, <- app_assoc.
Qed.

Lemma push_all_normal_decodes n vals this r :
  own n (secret this) <> None -> snd (push_all n vals this) = Normal r ->
  exists ds, decode_all vals = Some ds.
Proof.
  revert this. induction vals as [|v vals IH]; intros this Ho.
  - intros _. now exists [].
  - destruct (own n (secret this)) as [vs|] eqn:E; [|congruence].
    rewrite (push_all_own_cons _ _ _ _ _ E). simpl.
    destruct (decode_value v) as [d|]; [|discriminate].
    intros H.
    destruct (IH (mk (put n (vs ++ [d]) (secret this)) (secret_prototype this)))
      as [ds Hds]; auto.
    + simpl. rewrite own_put_same. discriminate.
    + rewrite Hds. eauto.
Qed.

Lemma push_all_other n m vals this :
  n <> m -> own m (secret (fst (push_all n vals this))) = own m (secret this).
Proof.
  intros Hne. revert this. induction vals as [|v vals IH]; intros this; simpl; auto.
  destruct (secret_at n this) eqn:E; simpl; auto;
    destruct (decode_value v); simpl; auto; rewrite IH; simpl; auto.
  now apply own_put_other.
Qed.

Lemma push_all_prototype n vals this :
  n <> proto_name ->
  secret_prototype (fst (push_all n vals this)) = secret_prototype this.
Proof.
  intros Hne. revert this. induction vals as [|v vals IH]; intros this; simpl; auto.
  destruct (secret_at n this) eqn:E; simpl; auto;
    destruct (decode_value v); simpl; auto; rewrite IH; simpl; auto.
  apply secret_at_prototype in E. now destruct E.
Qed.


Lemma secret_assign_own_other n m v this :
  n <> m -> own m (secret (secret_assign n v this)) = own m (secret this).
Proof.
  intros Hne. unfold secret_assign, assign.
  destruct (own n (secret this)); simpl; [now apply own_put_other|].
  destruct (eqb_str n proto_name); simpl; auto. now apply own_put_other.
Qed.

Lemma append_other n m values this :
  n <> m -> own m (secret (fst (append n values this))) = own m (secret this).
Proof.
  intros Hne. unfold append.
  destruct (is_empty n || falsy values); simpl; auto.
  rewrite push_all_other by assumption.
  destruct (falsy_member (secret_at n this)); auto.
  now apply secret_assign_own_other.
Qed.

Lemma append_prototype n values this :
  n <> proto_name ->
  secret_prototype (fst (append n values this)) = secret_prototype this.
Proof.
  intros Hne. unfold append.
  destruct (is_empty n || falsy values); simpl; auto.
  rewrite push_all_prototype by assumption.
  destruct (falsy_member (secret_at n this)); auto.
  now rewrite secret_assign_other.
Qed.

(** [append] on a name the store does not inherit, in closed form. *)
Lemma append_not_inherited n vals ds this :
  n <> [] -> inherits (secret_prototype this) n = false ->
  decode_all vals = Some ds ->
  append n (Arr vals) this
  = (mk (put n (stored n this ++ ds) (secret this)) (secret_prototype this),
     Normal ReturnsUndefined).
Proof.
  intros Hn Hi Hd. unfold append, stored. rewrite (is_empty_false n Hn).
  cbn [falsy orb as_array].
  destruct (own n (secret this)) as [vs|] eqn:E.
  - rewrite (proj2 (secret_at_own n vs this) E). cbn [falsy_member].
    now apply push_all_decoded.
  - assert (Hat : secret_at n this = Absent) by (now apply lookup_not_inherited).
    rewrite Hat. cbn [falsy_member].
    rewrite secret_assign_other by (eapply not_inherited_not_proto; eauto).
    rewrite (push_all_decoded n vals _ [] ds) by (simpl; auto using own_put_same).
    simpl. now rewrite put_put.
Qed.

(** What a call of [append] that completes adds to the values of its
    name, in a store whose prototype is [Object.prototype]. *)
Lemma append_stored n values this this' r :
  secret_prototype this = ObjectPrototype ->
  append n values this = (this', Normal r) ->
  stored n this'
  = stored n this ++ (if negb (is_empty n || falsy values)
                      then decoded (as_array values) else []).
Proof.
  intros Hproto. unfold append, stored.
  destruct (is_empty n || falsy values) eqn:G; simpl negb; cbv iota.
  - intros [= <- _]. now rewrite app_nil_r.
  - unfold secret_at at 1. rewrite Hproto, lookup_object.
    destruct (own n (secret this)) as [vs|] eqn:E.
    + cbn [falsy_member]. intros P.
      destruct (push_all_normal_decodes n (as_array values) this r) as [ds Hds];
        [congruence|now rewrite P|].
      rewrite (push_all_decoded n _ this vs ds E Hds) in P.
      injection P as <- _. simpl.
      now rewrite own_put_same, (decode_all_decoded _ _ Hds).
    + destruct (inherited n) eqn:I; cbn [falsy_member].
      * intros P.
        assert (Hv : as_array values = []).
        { eapply (push_all_inherited n _ this r); auto. now rewrite P. }
        rewrite Hv, push_all_nil in P. injection P as <- _.
        rewrite E, Hv. reflexivity.
      * rewrite secret_assign_other by (intros ->; discriminate). intros P.
        set (this1 := mk (put n [] (secret this)) (secret_prototype this)) in *.
        assert (E1 : own n (secret this1) = Some []) by apply own_put_same.
        destruct (push_all_normal_decodes n (as_array values) this1 r) as [ds Hds];
          [congruence|now rewrite P|].
        rewrite (push_all_decoded n _ this1 [] ds E1 Hds) in P.
        injection P as <- _. simpl.
        now rewrite own_put_same, (decode_all_decoded _ _ Hds).
Qed.

Lemma reads_same m a b :
  own m (secret a) = own m (secret b) ->
  secret_prototype a = secret_prototype b ->
  has m a = has m b /\ get m a = get m b /\ getAll m a = getAll m b.
Proof.
  intros H Hp. unfold get, getAll, has, has_property, secret_at, lookup.
  now rewrite H, Hp.
Qed.

(** X1.  [append(name, values)] with a sequence of well-formed values,
    on a name that is not empty and that the store does not inherit from
    its prototype, completes and adds the decoded values, in their
    order, after the values the name already has; the values of every
    other name, and what [get], [getAll] and [has] answer for it, stay
    as they were.  As long as the prototype of the store is
    [Object.prototype], the names it does not inherit are those outside
    [Object.prototype]. *)
Theorem append_sequence_appends_in_order
    (name : jsstring) (vals ds : list jsstring) (this : URLSearch) :
  name <> [] -> inherits (secret_prototype this) name = false ->
  decode_all vals = Some ds ->
  snd (append name (Arr vals) this) = Normal ReturnsUndefined
  /\ getAll name (fst (append name (Arr vals) this))
     = Normal (Arr (stored name this ++ ds))
  /\ (forall m, m <> name ->
        has m (fst (append name (Arr vals) this)) = has m this
        /\ get m (fst (append name (Arr vals) this)) = get m this
        /\ getAll m (fst (append name (Arr vals) this)) = getAll m this)
  /\ (secret_prototype this = ObjectPrototype ->
      inherits (secret_prototype this) name = inherited name).
Proof.
  intros Hn Hi Hd. rewrite (append_not_inherited name vals ds) by assumption.
  split; [reflexivity|]. split; [|split].
  - unfold getAll, has, secret_at. simpl.
    rewrite has_property_own, own_put_same.
    now rewrite (lookup_own _ _ _ _ (own_put_same _ _ _)).
  - intros m Hm. apply reads_same; simpl; auto.
    apply own_put_other. congruence.
  - intros ->. apply inherits_object.
Qed.

Lemma append_sequence_appends_in_order_witness :
  exists c,
    parse "a=1&b=2" = Normal c
    /\ getAll (js "a") (fst (append (js "a") (Arr [js "x%21"; js "y+z"]) c))
       = Normal (Arr [js "1"; js "x!"; js "yz"])
    /\ getAll (js "b") (fst (append (js "a") (Arr [js "x%21"; js "y+z"]) c))
       = Normal (Arr [js "2"]).
Proof.
  eexists. split; [reflexivity|].
  destruct (append_sequence_appends_in_order
              (js "a") [js "x%21"; js "y+z"] [js "x!"; js "yz"]
              (mk [(js "a", [js "1"]); (js "b", [js "2"])] ObjectPrototype))
    as (_ & Ha & Hb & _); [discriminate|reflexivity|reflexivity|].
  split; [exact Ha|].
  destruct (Hb (js "b")) as (_ & _ & Hg); [discriminate|exact Hg].
Defined.

(** What the appends of a constructor collect under a name. *)
Lemma append_each_stored n l this c :
  secret_prototype this = ObjectPrototype ->
  append_each l this = Normal c ->
  stored n c = stored n this ++ collected n l.
Proof.
  revert this. induction l as [|[k values] l IH]; intros this Hproto; simpl.
  - intros [= <-]. now rewrite app_nil_r.
  - destruct (append k values this) as [this' [r|e]] eqn:A; [|discriminate].
    destruct (append_names _ _ _ _ _ Hproto A) as [_ Hproto'].
    intros H. rewrite (IH _ Hproto' H), app_assoc. f_equal.
    destruct (eqb_str k n) eqn:E.
    + apply eqb_str_eq in E. subst k. simpl.
      now rewrite (append_stored _ _ _ _ _ Hproto A).
    + apply eqb_str_neq in E. simpl. unfold stored.
      pose proof (append_other k n values this E) as Ho.
      rewrite A in Ho. simpl in Ho. now rewrite Ho, app_nil_r.
Qed.

(** X2.  A collection built by the constructor holds, under each name,
    the decoded values of the pairs of that name, in the order of the
    pairs, whatever lies between them; pairs with an empty name or an
    empty or absent value contribute nothing. *)
Theorem constructor_collects_values_by_name (query : Query) (c : URLSearch) (n : jsstring) :
  constructor query = Normal c ->
  stored n c = collected n (constructor_pairs query)
  /\ (plain n -> getAll n c = Normal (Arr (collected n (constructor_pairs query)))).
Proof.
  intros Hc.
  destruct (constructor_names _ _ Hc) as (_ & _ & Hproto).
  assert (H : stored n c = collected n (constructor_pairs query)).
  { apply constructor_appends in Hc.
    now rewrite (append_each_stored n _ empty c eq_refl Hc). }
  split; [exact H|]. intros Hp. rewrite <- H.
  unfold getAll, stored, has, secret_at. rewrite Hproto, has_object, lookup_object.
  unfold plain in Hp.
  destruct (own n (secret c)); [reflexivity|now rewrite Hp].
Qed.

Lemma constructor_collects_values_by_name_witness :
  exists c,
    parse "a=1&b=2&a=&=9&a=3%204" = Normal c
    /\ getAll (js "a") c = Normal (Arr [js "1"; js "3 4"]).
Proof.
  eexists. split; [reflexivity|].
  destruct (constructor_collects_values_by_name
              (QString (js "a=1&b=2&a=&=9&a=3%204")) _ (js "a") eq_refl)
    as [_ H].
  apply H. reflexivity.
Defined.


(** *** Names keep their values *)




Lemma keys_normal this ks :
  keys this = Normal ks ->
  enumerable (secret this) /\ ks = map fst (own_enum (secret this)).
Proof.
  intros H. destruct (own (js "hasOwnProperty") (secret this)) eqn:E.
  - unfold keys in H. rewrite for_in_own_shadowed in H; [discriminate|].
    unfold enumerable. congruence.
  - split; [exact E|]. rewrite keys_enum in H by exact E. congruence.
Qed.

Lemma fold_put_values (P : list jsstring -> Prop) (g : jsstring -> list jsstring) l acc :
  Forall (fun k => P (g k)) l ->
  Forall (fun kv => P (snd kv)) acc ->
  Forall (fun kv => P (snd kv)) (fold_left (fun temp key => put key (g key) temp) l acc).
Proof.
  intros Hl. revert acc. induction Hl as [|k l Hk Hl IH]; intros acc Hacc; simpl; auto.
  apply IH. now apply put_Forall.
Qed.


Lemma secret_assign_secret n v this :
  secret (secret_assign n v this) = put n v (secret this)
  \/ secret (secret_assign n v this) = secret this.
Proof.
  unfold secret_assign, assign. destruct (own n (secret this)); simpl; auto.
  destruct (eqb_str n proto_name); simpl; auto.
Qed.






(** *** [delete] and [set] *)

Lemma remove_put n v o : remove n (put n v o) = remove n o.
Proof.
  unfold remove. induction o as [|[k w] o IH]; simpl.
  - now rewrite eqb_str_refl.
  - destruct (eqb_str k n) eqn:E; simpl; rewrite E; simpl; auto.
    now rewrite IH.
Qed.

Lemma remove_push_all n vals this :
  remove n (secret (fst (push_all n vals this))) = remove n (secret this).
Proof.
  revert this. induction vals as [|v vals IH]; intros this; simpl; auto.
  destruct (secret_at n this) eqn:E; simpl; auto;
    destruct (decode_value v); simpl; auto; rewrite IH; simpl; auto.
  apply remove_put.
Qed.

Lemma remove_secret_assign n v this :
  remove n (secret (secret_assign n v this)) = remove n (secret this).
Proof.
  destruct (secret_assign_secret n v this) as [-> | ->]; auto. apply remove_put.
Qed.

Lemma remove_remove n o : remove n (remove n o) = remove n o.
Proof.
  unfold remove. induction o as [|[k w] o IH]; simpl; auto.
  destruct (eqb_str k n) eqn:E; simpl; auto. now rewrite E, IH.
Qed.

(** X4.  [delete(n)] removes the name and all its values and nothing
    else: afterwards a name that the store does not inherit from its
    prototype is reported absent by [has], [get] and [getAll], every
    other name answers as before, and, for every name but [__proto__],
    whatever [set] or [append] did to the name is undone.  A name that
    the store inherits is still reported present by [has]; as long as
    the prototype of the store is [Object.prototype], these are the
    members of [Object.prototype]. *)
Theorem delete_forgets_only_its_name :
  (forall n this,
     own n (secret (delete n this)) = None
     /\ secret_prototype (delete n this) = secret_prototype this
     /\ delete n (delete n this) = delete n this)
  /\ (forall n this,
        inherits (secret_prototype this) n = false ->
        has n (delete n this) = false /\ get n (delete n this) = Null
        /\ getAll n (delete n this) = Normal (Arr []))
  /\ (forall n this,
        inherits (secret_prototype this) n = true -> has n (delete n this) = true)
  /\ (forall n m this,
        m <> n ->
        has m (delete n this) = has m this /\ get m (delete n this) = get m this
        /\ getAll m (delete n this) = getAll m this)
  /\ (forall n v this,
        n <> proto_name -> delete n (set n v this) = delete n this)
  /\ (forall n values this,
        n <> proto_name -> delete n (fst (append n values this)) = delete n this)
  /\ (forall n, inherits ObjectPrototype n = inherited n).
Proof.
  split; [|split; [|split; [|split; [|split; [|split]]]]].
  - intros n this. unfold delete. simpl. split; [|split]; auto.
    + apply own_remove_same.
    + now rewrite remove_remove.
  - intros n this Hp.
    assert (Hhas : has n (delete n this) = false).
    { unfold has, delete. simpl. now rewrite has_property_own, own_remove_same. }
    unfold get, getAll. now rewrite Hhas.
  - intros n this Hi. unfold has, delete. simpl.
    now rewrite has_property_own, own_remove_same.
  - intros n m this Hm. apply reads_same; unfold delete; simpl; auto.
    apply own_remove_other. congruence.
  - intros n v this Hn. unfold delete, set.
    rewrite secret_assign_other by assumption. simpl. now rewrite remove_put.
  - intros n values this Hn. unfold delete.
    rewrite append_prototype by assumption. f_equal.
    unfold append. destruct (is_empty n || falsy values); simpl; auto.
    rewrite remove_push_all.
    destruct (falsy_member (secret_at n this)); auto.
    apply remove_secret_assign.
  - apply inherits_object.
Qed.

Lemma delete_forgets_only_its_name_witness :
  let this := mk [(js "a", [js "1"]); (js "b", [js "2"])] ObjectPrototype in
  (has (js "a") (delete (js "a") this) = false
   /\ get (js "a") (delete (js "a") this) = Null
   /\ getAll (js "a") (delete (js "a") this) = Normal (Arr []))
  /\ (has (js "b") (delete (js "a") this) = has (js "b") this
      /\ get (js "b") (delete (js "a") this) = get (js "b") this
      /\ getAll (js "b") (delete (js "a") this) = getAll (js "b") this)
  /\ has (js "toString") (delete (js "toString") this) = true
  /\ has (js "0") (delete (js "0") (set proto_name (PString (js "x")) this)) = true.
Proof.
  intros this. split; [|split; [|split]].
  - apply (proj1 (proj2 delete_forgets_only_its_name) (js "a") this).
    reflexivity.
  - apply (proj1 (proj2 (proj2 (proj2 delete_forgets_only_its_name)))
             (js "a") (js "b") this).
    discriminate.
  - apply (proj1 (proj2 (proj2 delete_forgets_only_its_name))
             (js "toString") this).
    reflexivity.
  - apply (proj1 (proj2 (proj2 delete_forgets_only_its_name))
             (js "0") (set proto_name (PString (js "x")) this)).
    reflexivity.
Defined.

(** [keys] depends on the stored names only. *)
Lemma keys_by_names this :
  keys this = if seen (js "hasOwnProperty") (map fst (secret this))
              then Throw TypeError
              else Normal (enumeration_order (map fst (secret this))).
Proof.
  rewrite seen_own. destruct (own (js "hasOwnProperty") (secret this)) eqn:E.
  - unfold keys. apply for_in_own_shadowed. unfold enumerable. congruence.
  - rewrite keys_enum by exact E. now rewrite own_enum_order.
Qed.

(** X5.  [set(n, v)] writes in place: the last of two calls on a name
    wins, the other names answer as before, and when the name is
    already stored [keys()] does not change. *)
Theorem set_overwrites_in_place (n : jsstring) (v w : primitive) (this : URLSearch) :
  n <> proto_name ->
  set n v (set n w this) = set n v this
  /\ (forall m, m <> n ->
        has m (set n v this) = has m this /\ get m (set n v this) = get m this
        /\ getAll m (set n v this) = getAll m this)
  /\ (own n (secret this) <> None -> keys (set n v this) = keys this)
  /\ (own n (secret this) = None ->
        map fst (secret (set n v this)) = map fst (secret this) ++ [n]).
Proof.
  intros Hn. destruct (set_names n v this Hn) as [Hnames _].
  split; [|split; [|split]].
  - unfold set. rewrite !secret_assign_other by assumption. simpl.
    now rewrite put_put.
  - intros m Hm. unfold set. rewrite secret_assign_other by assumption.
    apply reads_same; simpl; auto.
    apply own_put_other. congruence.
  - intros Ho. rewrite !keys_by_names, Hnames. unfold see.
    rewrite (seen_own n). now destruct (own n (secret this)).
  - intros Ho. rewrite Hnames. unfold see. now rewrite seen_own, Ho.
Qed.

Lemma set_overwrites_in_place_witness :
  exists c,
    parse "b=1&a=2&b=3" = Normal c
    /\ keys (set (js "b") (PString (js "x")) c) = keys c
    /\ keys c = Normal [js "b"; js "a"]
    /\ getAll (js "b") (set (js "b") (PString (js "x")) c) = Normal (Arr [js "x"]).
Proof.
  eexists. split; [reflexivity|].
  destruct (set_overwrites_in_place (js "b") (PString (js "x")) PNull
              (mk [(js "b", [js "1"; js "3"]); (js "a", [js "2"])] ObjectPrototype))
    as (_ & _ & Hk & _); [vm_compute; discriminate|].
  split; [apply Hk; discriminate|]. split; reflexivity.
Defined.


(** *** What the enumerations list *)

Lemma own_Some_In n vs o : own n o = Some vs -> In (n, vs) o.
Proof.
  induction o as [|[k w] o IH]; simpl; [discriminate|].
  destruct (eqb_str k n) eqn:E.
  - apply eqb_str_eq in E. subst k. intros [= <-]. now left.
  - intros H. right. auto.
Qed.

(** X6.  On a collection with distinct names and no property called
    [hasOwnProperty], the enumerations agree with the look-ups: [keys()]
    lists each stored name once, and [has] is true of each; a name that
    the store does not inherit from its prototype is in [keys()] exactly
    when [has] says so; [entries()] holds the pair [(n, v)] exactly when
    [v] is among the values of [n]; and [values()] is the second
    components of [entries()].  An inherited name is never listed,
    though [has] is true of it. *)
Theorem enumerations_agree_with_lookups (this : URLSearch) :
  enumerable (secret this) -> NoDup (map fst (secret this)) ->
  exists ks es,
    keys this = Normal ks /\ entries this = Normal es
    /\ values this = Normal (map snd es)
    /\ NoDup ks
    /\ (forall n, In n ks <-> own n (secret this) <> None)
    /\ (forall n, In n ks -> has n this = true)
    /\ (forall n, inherits (secret_prototype this) n = false ->
                  (has n this = true <-> In n ks))
    /\ (forall n, own n (secret this) = None ->
                  inherits (secret_prototype this) n = true ->
                  has n this = true /\ ~ In n ks)
    /\ (forall n v, In (n, v) es <-> In v (stored n this)).
Proof.
  intros Henum Hnd.
  exists (map fst (own_enum (secret this))), (visited (secret this)).
  assert (Hperm : Permutation (map fst (own_enum (secret this))) (map fst (secret this)))
    by apply Permutation_map, own_enum_perm.
  assert (Hin : forall n, In n (map fst (own_enum (secret this)))
                          <-> own n (secret this) <> None).
  { intros n. split.
    - intros H. apply (Permutation_in _ Hperm) in H. apply own_In in H.
      destruct H as [vs ->]. discriminate.
    - intros H. apply (Permutation_in _ (Permutation_sym Hperm)).
      apply own_In. destruct (own n (secret this)); [eauto|congruence]. }
  split; [now apply keys_enum|]. split; [now apply entries_visited|].
  split; [now apply values_visited|].
  split; [eapply Permutation_NoDup; [symmetry; exact Hperm|exact Hnd]|].
  split; [exact Hin|]. split; [|split; [|split]].
  - intros n H. apply Hin in H. unfold has. rewrite has_property_own.
    destruct (own n (secret this)); congruence.
  - intros n Hp. rewrite Hin. unfold has. rewrite has_property_own.
    destruct (own n (secret this)); [split; [discriminate|reflexivity]|].
    rewrite Hp. split; [discriminate|congruence].
  - intros n Ho Hi. rewrite Hin. unfold has. rewrite has_property_own, Ho.
    split; auto.
  - intros n v. unfold stored. split.
    + intros H. apply visited_In in H. destruct H as [vs [Hkv Hv]].
      now rewrite (NoDup_own n vs _ Hnd Hkv).
    + intros H. destruct (own n (secret this)) as [vs|] eqn:E; [|destruct H].
      unfold visited. apply in_flat_map. exists (n, vs). split.
      * apply (Permutation_in _ (Permutation_sym (own_enum_perm _))).
        now apply own_Some_In.
      * simpl. now apply in_map.
Qed.

Lemma enumerations_agree_with_lookups_witness :
  exists c ks es,
    bind (parse "b=1&7=x&b=2") (fun c => Normal (set proto_name (PString (js "x")) c))
    = Normal c
    /\ keys c = Normal ks /\ entries c = Normal es
    /\ (In (js "7") ks <-> own (js "7") (secret c) <> None)
    /\ (has (js "0") c = true /\ ~ In (js "0") ks)
    /\ (In (js "b", js "2") es <-> In (js "2") (stored (js "b") c)).
Proof.
  assert (Hnd : NoDup (map fst [(js "b", [js "1"; js "2"]); (js "7", [js "x"])])).
  { constructor; [|constructor; [|constructor]]; simpl; intuition discriminate. }
  destruct (enumerations_agree_with_lookups
              (mk [(js "b", [js "1"; js "2"]); (js "7", [js "x"])]
                  (ArrayInstance [js "x"])) eq_refl Hnd)
    as (ks & es & Hk & He & _ & _ & Hin & _ & _ & Hinh & Hes).
  eexists. exists ks, es. split; [reflexivity|].
  split; [exact Hk|]. split; [exact He|]. split; [apply Hin|].
  split; [now apply Hinh|apply Hes].
Defined.

(** X7.  [forEach(callback)] calls the callback on exactly the pairs of
    [entries()], in that order, handing on what each call leaves, and
    stops at the first call that raises. *)
Theorem forEach_visits_entries {A : Type}
    (f : A -> jsstring -> jsstring -> completion A) (a : A)
    (this : URLSearch) (es : list (jsstring * jsstring)) :
  entries this = Normal es ->
  forEach (Some f) a this = foldM (fun a nv => f a (snd nv) (fst nv)) es a.
Proof.
  intros He.
  assert (Henum : enumerable (secret this)).
  { destruct (own (js "hasOwnProperty") (secret this)) eqn:E; [|exact E].
    unfold entries, forEach in He. rewrite for_in_own_shadowed in He; [discriminate|].
    unfold enumerable. congruence. }
  rewrite entries_visited in He by assumption. injection He as <-.
  now apply forEach_visited.
Qed.

Lemma forEach_visits_entries_witness :
  exists c,
    parse "b=1&a=2&b=3" = Normal c
    /\ forEach (Some (fun acc v n => if eqb_str v (js "2") then Throw URIError
                                     else Normal (acc ++ n ++ v)))
               [] c
       = Throw URIError
    /\ forEach (Some (fun acc v n => Normal (acc ++ n ++ v))) [] c
       = Normal (js "b1b3a2").
Proof.
  exists (mk [(js "b", [js "1"; js "3"]); (js "a", [js "2"])] ObjectPrototype).
  split; [reflexivity|]. split.
  - rewrite (forEach_visits_entries _ _
               (mk [(js "b", [js "1"; js "3"]); (js "a", [js "2"])] ObjectPrototype)
               [(js "b", js "1"); (js "b", js "3"); (js "a", js "2")] eq_refl).
    reflexivity.
  - rewrite (forEach_visits_entries _ _
               (mk [(js "b", [js "1"; js "3"]); (js "a", [js "2"])] ObjectPrototype)
               [(js "b", js "1"); (js "b", js "3"); (js "a", js "2")] eq_refl).
    reflexivity.
Defined.


(** *** What [sort] keeps *)

Lemma fold_put_own_in (g : jsstring -> list jsstring) l acc n :
  In n l ->
  own n (fold_left (fun temp key => put key (g key) temp) l acc) = Some (g n).
Proof.
  revert acc. induction l as [|k l IH]; intros acc Hin; [destruct Hin|].
  simpl. destruct (in_dec (list_eq_dec N.eq_dec) n l) as [Hl|Hl].
  - now apply IH.
  - destruct Hin as [->|Hin]; [|contradiction].
    rewrite (sort_loop_own g n l _ Hl). apply own_put_same.
Qed.

Lemma put_NoDup n v o : NoDup (map fst o) -> NoDup (map fst (put n v o)).
Proof.
  intros H. rewrite map_fst_put. destruct (own n o) eqn:E; auto.
  apply NoDup_app; auto.
  - repeat constructor. tauto.
  - intros a Ha [<-|[]]. apply own_None_In in E. contradiction.
Qed.

Lemma fold_put_NoDup (g : jsstring -> list jsstring) l acc :
  NoDup (map fst acc) ->
  NoDup (map fst (fold_left (fun temp key => put key (g key) temp) l acc)).
Proof.
  revert acc. induction l as [|k l IH]; intros acc H; simpl; auto.
  apply IH. now apply put_NoDup.
Qed.

(** The store [sort] builds. *)
Lemma sort_secret this :
  enumerable (secret this) -> assignable (secret this) ->
  sort this
  = Normal (mk (fold_left
                  (fun temp key => put key (array_sort (stored key this)) temp)
                  (array_sort (map fst (own_enum (secret this)))) [])
               ObjectPrototype).
Proof. exact (sort_assignable this). Qed.

Lemma sorted_keys_In this n :
  In n (array_sort (map fst (own_enum (secret this))))
  <-> own n (secret this) <> None.
Proof.
  split.
  - intros H. eapply Permutation_in in H; [|apply (sort_by_perm leb_str)].
    eapply Permutation_in in H; [|apply Permutation_map, own_enum_perm].
    apply own_In in H. destruct H as [vs ->]. discriminate.
  - intros H.
    eapply Permutation_in; [symmetry; apply (sort_by_perm leb_str)|].
    eapply Permutation_in; [symmetry; apply Permutation_map, own_enum_perm|].
    apply own_In. destruct (own n (secret this)); [eauto|congruence].
Qed.

(** X8.  [sort()] loses nothing and adds nothing: the sorted collection
    has the same names, each once, and under each name the same values,
    rearranged.  Its store is a fresh object with [Object.prototype] for
    prototype; [has] answers as before when that was the prototype
    before. *)
Theorem sort_keeps_names_and_values (this : URLSearch) :
  enumerable (secret this) -> assignable (secret this) ->
  exists sorted,
    sort this = Normal sorted
    /\ NoDup (map fst (secret sorted))
    /\ secret_prototype sorted = ObjectPrototype
    /\ (forall n,
          (own n (secret sorted) = None <-> own n (secret this) = None)
          /\ stored n sorted = array_sort (stored n this)
          /\ Permutation (stored n sorted) (stored n this))
    /\ (secret_prototype this = ObjectPrototype ->
        forall n, has n sorted = has n this).
Proof.
  intros Henum Hassign. eexists. split; [now apply sort_secret|]. simpl.
  split; [apply fold_put_NoDup; constructor|]. split; [reflexivity|].
  set (g := fun key => array_sort (stored key this)).
  set (temp := fold_left (fun temp key => put key (g key) temp)
                 (array_sort (map fst (own_enum (secret this)))) []).
  assert (Hs : forall n,
             stored n (mk temp ObjectPrototype) = array_sort (stored n this)
             /\ (own n temp = None <-> own n (secret this) = None)).
  { intros n. destruct (own n (secret this)) as [vs|] eqn:E.
    - assert (Hin : In n (array_sort (map fst (own_enum (secret this)))))
        by (apply sorted_keys_In; congruence).
      unfold stored at 1. simpl. unfold temp. rewrite (fold_put_own_in g _ _ n Hin).
      split; [reflexivity|]. split; discriminate.
    - assert (Hin : ~ In n (array_sort (map fst (own_enum (secret this)))))
        by (rewrite sorted_keys_In; congruence).
      unfold stored. simpl. unfold temp. rewrite (sort_loop_own g n _ _ Hin), E. simpl.
      split; [reflexivity|]. tauto. }
  split.
  - intros n. destruct (Hs n) as [Hst Ho]. split; [exact Ho|]. split; [exact Hst|].
    match goal with
    | |- Permutation ?a _ =>
        replace a with (array_sort (stored n this)) by (symmetry; exact Hst)
    end.
    apply (sort_by_perm leb_str).
  - intros Hp n. destruct (Hs n) as [_ [Ho1 Ho2]].
    unfold has. cbn [secret secret_prototype]. rewrite Hp, !has_object.
    change (match own n temp with Some _ => true | None => inherited n end
            = match own n (secret this) with Some _ => true | None => inherited n end).
    destruct (own n temp); destruct (own n (secret this)); auto;
      try discriminate (Ho1 eq_refl); try discriminate (Ho2 eq_refl).
Qed.

Lemma sort_keeps_names_and_values_witness :
  exists c sorted,
    parse "b=2&a=z&a=y&10=q" = Normal c
    /\ sort c = Normal sorted
    /\ has (js "a") sorted = has (js "a") c
    /\ stored (js "a") sorted = [js "y"; js "z"].
Proof.
  destruct (sort_keeps_names_and_values
              (mk [(js "b", [js "2"]); (js "a", [js "z"; js "y"]); (js "10", [js "q"])]
                  ObjectPrototype)
              eq_refl eq_refl)
    as (sorted & Hs & _ & _ & Hn & Hh).
  eexists. exists sorted. split; [reflexivity|]. split; [exact Hs|].
  destruct (Hn (js "a")) as (_ & Hst & _). split; [now apply Hh|exact Hst].
Defined.


Lemma leb_str_antisym a b : leb_str a b = true -> leb_str b a = true -> a = b.
Proof.
  revert b. induction a as [|x a IH]; intros [|y b]; simpl; auto; try discriminate.
  destruct (x <? y) eqn:E1; destruct (y <? x) eqn:E2; try discriminate.
  - bool_lia.
  - intros H1 H2. bool_lia. assert (x = y) by lia. subst y. f_equal. now apply IH.
Qed.

Lemma sorted_permutation_unique {A} (R : A -> A -> Prop) l1 l2 :
  (forall a b, R a b -> R b a -> a = b) ->
  StronglySorted R l1 -> StronglySorted R l2 -> Permutation l1 l2 -> l1 = l2.
Proof.
  intros Hanti H1. revert l2. induction H1 as [|x l1 Hs IH Hx]; intros l2 H2 Hp.
  - apply Permutation_nil in Hp. now subst.
  - destruct l2 as [|y l2]; [apply Permutation_sym, Permutation_nil in Hp; discriminate|].
    inversion H2 as [|? ? Hs2 Hy]; subst.
    assert (x = y) as ->.
    { assert (Hyin : In y (x :: l1))
        by (eapply Permutation_in; [symmetry; exact Hp|now left]).
      assert (Hxin : In x (y :: l2))
        by (eapply Permutation_in; [exact Hp|now left]).
      destruct Hyin as [->|Hyin]; auto.
      destruct Hxin as [->|Hxin]; auto.
      rewrite Forall_forall in Hx, Hy. apply Hanti; auto. }
    f_equal. apply IH; auto. eapply Permutation_cons_inv; eauto.
Qed.

Lemma fold_put_fresh (g : jsstring -> list jsstring) l acc :
  NoDup l -> (forall k, In k l -> own k acc = None) ->
  fold_left (fun temp key => put key (g key) temp) l acc
  = acc ++ map (fun k => (k, g k)) l.
Proof.
  revert acc. induction l as [|k l IH]; intros acc Hnd Hacc; simpl.
  - now rewrite app_nil_r.
  - inversion Hnd as [|? ? Hk Hnd']; subst.
    rewrite put_new by (apply Hacc; now left).
    rewrite IH; auto.
    + now rewrite <- app_assoc.
    + intros k' Hk'. apply own_app_None. split; [apply Hacc; now right|].
      simpl. destruct (eqb_str k k') eqn:E; auto.
      apply eqb_str_eq in E. now subst.
Qed.

Lemma store_by_names o p :
  NoDup (map fst o) -> o = map (fun k => (k, stored k (mk o p))) (map fst o).
Proof.
  induction o as [|[k v] o IH]; intros Hnd; simpl; auto.
  inversion Hnd as [|? ? Hk Hnd']; subst.
  unfold stored at 1. simpl. rewrite eqb_str_refl. f_equal.
  rewrite (IH Hnd') at 1. apply map_ext_in. intros k' Hk'.
  unfold stored. simpl. destruct (eqb_str k k') eqn:E; auto.
  apply eqb_str_eq in E. now subst.
Qed.

(** X9.  [sort()] is idempotent: sorting a sorted collection leaves
    it as it is. *)
Theorem sort_twice_is_sort_once (this sorted : URLSearch) :
  assignable (secret this) -> sort this = Normal sorted ->
  sort sorted = Normal sorted.
Proof.
  intros Hassign Hs.
  assert (Henum : enumerable (secret this)).
  { unfold sort in Hs. destruct (keys this) as [ks|] eqn:K; [|discriminate].
    now destruct (keys_normal _ _ K). }
  rewrite sort_secret in Hs by assumption. injection Hs as <-.
  set (g := fun key => array_sort (stored key this)).
  set (L := array_sort (map fst (own_enum (secret this)))).
  set (temp := fold_left (fun temp key => put key (g key) temp) L []).
  assert (Hnd : NoDup (map fst temp)) by (apply fold_put_NoDup; constructor).
  assert (Hsorted : StronglySorted lex_le (map fst temp)).
  { apply sort_loop_names; simpl; try constructor.
    apply array_sort_strongly_sorted. }
  assert (Hvals : Forall (fun kv => Sorted lex_le (snd kv)) temp).
  { apply sort_loop_values; [|constructor]. intros k. apply array_sort_sorted. }
  assert (Htemp : enumerable temp).
  { unfold enumerable, temp. rewrite sort_loop_own; auto.
    unfold L. rewrite sorted_keys_In. unfold enumerable in Henum. congruence. }
  assert (Htemp' : assignable temp).
  { unfold assignable, temp. rewrite sort_loop_own; auto.
    unfold L. rewrite sorted_keys_In. unfold assignable in Hassign. congruence. }
  rewrite sort_secret by assumption. simpl. f_equal. f_equal.
  assert (HK : array_sort (map fst (own_enum temp)) = map fst temp).
  { apply (sorted_permutation_unique lex_le).
    - apply leb_str_antisym.
    - apply array_sort_strongly_sorted.
    - exact Hsorted.
    - etransitivity; [apply (sort_by_perm leb_str)|].
      apply Permutation_map, own_enum_perm. }
  change (fold_left (fun temp0 key =>
                       put key (array_sort (stored key (mk temp ObjectPrototype))) temp0)
            (array_sort (map fst (own_enum temp))) [] = temp).
  rewrite HK, fold_put_fresh; auto. simpl.
  etransitivity; [|symmetry; apply (store_by_names temp ObjectPrototype Hnd)].
  apply map_ext_in. intros k Hk. f_equal.
  apply (sort_by_fixed leb_str).
  apply own_In in Hk. destruct Hk as [vs Hvs].
  unfold stored. simpl. rewrite Hvs.
  eapply (own_Forall (fun vs => Sorted lex_le vs)); eauto.
Qed.

Lemma sort_twice_is_sort_once_witness :
  exists c sorted,
    parse "b=2&a=z&a=y&10=q&9=r" = Normal c
    /\ sort c = Normal sorted
    /\ sort sorted = Normal sorted.
Proof.
  do 2 eexists. split; [reflexivity|]. split; [reflexivity|].
  apply (sort_twice_is_sort_once
           (mk [(js "9", [js "r"]); (js "10", [js "q"]); (js "b", [js "2"]);
                (js "a", [js "z"; js "y"])] ObjectPrototype)); reflexivity.
Defined.


(** *** When the enumerations and [toString] raise *)

Lemma encodeURI_encodable str :
  encodeURI str = if encodable str then Normal (encoded str) else Throw URIError.
Proof.
  unfold encodeURI, encodable, encoded. now destruct (encodeURIComponent str).
Qed.

Lemma mapM_completes {A B} (f : A -> completion B) l :
  completes (mapM f l) <-> Forall (fun x => completes (f x)) l.
Proof.
  induction l as [|x l IH]; simpl.
  - split; [constructor|]. intros _. now eexists.
  - destruct (f x) as [y|e] eqn:E; simpl.
    + destruct (mapM f l) as [ys|e]; simpl.
      * split; [|intros _; now eexists]. intros _. constructor.
        -- rewrite E. now eexists.
        -- apply IH. now eexists.
      * split; [intros [? H]; discriminate|]. intros H. inversion H; subst.
        now apply IH.
    + split; [intros [? H]; discriminate|]. intros H. inversion H as [|? ? Hx _].
      rewrite E in Hx. destruct Hx. discriminate.
Qed.

Lemma mapM_raises {A B} (f : A -> completion B) l e :
  (forall x, In x l -> completes (f x) \/ f x = Throw e) ->
  ~ completes (mapM f l) -> mapM f l = Throw e.
Proof.
  induction l as [|x l IH]; intros Hf Hn; simpl in *.
  - exfalso. apply Hn. now eexists.
  - destruct (Hf x) as [[y Hy]|Hx]; [now left| |].
    + rewrite Hy in *. simpl in *.
      destruct (mapM f l) as [ys|e'] eqn:M; simpl.
      * exfalso. apply Hn. now eexists.
      * apply IH; auto; intros [? H]; discriminate.
    + now rewrite Hx.
Qed.

(** X10.  The calls that enumerate the store, [keys], [values],
    [entries], [sort] and [toString], raise a [TypeError] exactly when
    a property called [hasOwnProperty] is stored, as it is after
    [set('hasOwnProperty', v)].  Otherwise the first four complete, and
    [toString] completes exactly when no name and no value it visits has
    a lone surrogate; if one has, it raises a [URIError]. *)
Theorem enumerating_calls_raise_when_shadowed :
  (forall this,
     ~ enumerable (secret this) ->
     keys this = Throw TypeError /\ values this = Throw TypeError
     /\ entries this = Throw TypeError /\ sort this = Throw TypeError
     /\ toString this = Throw TypeError)
  /\ (forall this,
        enumerable (secret this) ->
        completes (keys this) /\ completes (values this)
        /\ completes (entries this) /\ completes (sort this)
        /\ (all_encodable (secret this) = true -> completes (toString this))
        /\ (all_encodable (secret this) = false -> toString this = Throw URIError))
  /\ (forall v this, ~ enumerable (secret (set (js "hasOwnProperty") v this))).
Proof.
  split; [|split].
  - intros this H. unfold keys, values, entries, sort, toString, forEach, keys.
    now rewrite !for_in_own_shadowed by assumption.
  - intros this H.
    split; [rewrite keys_enum by assumption; now eexists|].
    split; [rewrite values_visited by assumption; now eexists|].
    split; [rewrite entries_visited by assumption; now eexists|].
    split; [unfold sort; rewrite keys_enum by assumption; now eexists|].
    rewrite toString_visited by assumption. unfold all_encodable.
    set (seg := fun nv : jsstring * jsstring =>
                  bind (encodeURI (fst nv)) (fun n =>
                  bind (encodeURI (snd nv)) (fun v =>
                  Normal (n ++ js "=" ++ v)))).
    assert (Hseg : forall nv,
               completes (seg nv) <-> encodable (fst nv) && encodable (snd nv) = true).
    { intros [n v]. unfold seg. simpl. rewrite !encodeURI_encodable.
      destruct (encodable n); simpl.
      - destruct (encodable v); simpl.
        + split; auto. intros _. now eexists.
        + split; [intros [? ?]|]; discriminate.
      - split; [intros [? ?]|]; discriminate. }
    assert (Hall : completes (mapM seg (visited (secret this)))
                   <-> forallb (fun nv => encodable (fst nv) && encodable (snd nv))
                               (visited (secret this)) = true).
    { rewrite mapM_completes, forallb_forall, Forall_forall.
      split; intros Hx x Hin; apply Hseg; auto. }
    split.
    + intros Hen. apply Hall in Hen. destruct Hen as [segs ->]. now eexists.
    + intros Hen. rewrite (mapM_raises seg _ URIError); auto.
      * intros [n v] _. unfold seg. simpl. rewrite !encodeURI_encodable.
        destruct (encodable n); simpl; auto.
        destruct (encodable v); simpl; auto. left. now eexists.
      * rewrite Hall. congruence.
  - intros v this. unfold enumerable, set.
    rewrite secret_assign_other by discriminate. simpl.
    rewrite own_put_same. discriminate.
Qed.

Lemma enumerating_calls_raise_when_shadowed_witness :
  let this := set (js "hasOwnProperty") (PString (js "1"))
                  (mk [(js "a", [js "1"])] ObjectPrototype) in
  keys this = Throw TypeError /\ values this = Throw TypeError
  /\ entries this = Throw TypeError /\ sort this = Throw TypeError
  /\ toString this = Throw TypeError.
Proof.
  intros this.
  apply (proj1 enumerating_calls_raise_when_shadowed this).
  apply (proj2 (proj2 enumerating_calls_raise_when_shadowed)).
Defined.


(** *** Reading back any encoded string *)

Lemma decodes_to_plus t s : decodes_to t s -> decodes_to (ch_plus :: t) s.
Proof.
  intros [[ts [H1 H2]] [H3 H4]]. split; [|split].
  - exists ts. split; auto.
  - constructor; auto. split; discriminate.
  - discriminate.
Qed.

(** The decode rule of [append] reads what [encodeURI] wrote as the
    string without its spaces. *)
Lemma encoded_decodes_without_spaces s e :
  well_formed s ->
  encodeURIComponent s = Some e ->
  decodes_to (replace_matches e) (remove_spaces s).
Proof.
  remember (List.length s) as n eqn:Hn.
  assert (Hle : (List.length s <= n)%nat) by lia. clear Hn.
  revert s e Hle. induction n as [|n IH]; intros s e Hle Hwf.
  - destruct s; [|simpl in Hle; lia]. intros [= <-]. apply decodes_to_nil.
  - destruct s as [|c rest]; [intros [= <-]; apply decodes_to_nil|].
    simpl in Hle. inversion Hwf as [|? ? Hc Hrest]; subst.
    rewrite encodeURIComponent_unfold.
    destruct (uri_unescaped c) eqn:U.
    + destruct (encodeURIComponent rest) as [e'|] eqn:E; [|discriminate].
      intros [= <-].
      rewrite replace_matches_other by now apply uri_unescaped_not_percent.
      assert (Hc32 : c <> 32) by (intros ->; discriminate).
      unfold remove_spaces. simpl. unfold ch_space.
      rewrite (eqb_false_lia c 32) by assumption. simpl.
      apply unescaped_block; auto. apply (IH rest); auto. lia.
    + destruct (in_range 56320 57343 c) eqn:L; [discriminate|].
      destruct (in_range 55296 56319 c) eqn:H.
      * destruct rest as [|d rest']; [discriminate|].
        destruct (in_range 56320 57343 d) eqn:D; [|discriminate].
        destruct (encodeURIComponent rest') as [e'|] eqn:E; [|discriminate].
        intros [= <-]. unfold escape, in_range in *. bool_lia.
        set (v := (c - 55296) * 1024 + (d - 56320) + 65536).
        rewrite replace_matches_octets by (apply utf8_encode_octets; unfold v; lia).
        unfold remove_spaces. simpl. unfold ch_space.
        rewrite (eqb_false_lia c 32), (eqb_false_lia d 32) by lia. simpl.
        replace (c :: d :: filter (fun c0 => negb (c0 =? 32)) rest')
          with (code_units v ++ remove_spaces rest').
        -- apply escaped_block.
           ++ unfold scalar, v. lia.
           ++ unfold v. lia.
           ++ inversion Hrest; subst. apply (IH rest'); auto. simpl in Hle. lia.
        -- unfold code_units. rewrite (ltb_false v 65536) by (unfold v; lia).
           simpl. f_equal; [|f_equal]; unfold v; lia.
      * destruct (encodeURIComponent rest) as [e'|] eqn:E; [|discriminate].
        intros [= <-]. unfold escape, in_range, code_unit in *.
        rewrite replace_matches_octets by (apply utf8_encode_octets; lia).
        assert (IHrest : decodes_to (replace_matches e') (remove_spaces rest))
          by (apply (IH rest); auto; lia).
        assert (Hscal : scalar c) by (unfold scalar; bool_lia).
        destruct (c =? 32) eqn:S.
        -- apply N.eqb_eq in S. subst c. unfold remove_spaces. simpl.
           now apply decodes_to_plus.
        -- apply N.eqb_neq in S. unfold remove_spaces. simpl. unfold ch_space.
           rewrite (eqb_false_lia c 32) by assumption. simpl.
           replace (c :: filter (fun c0 => negb (c0 =? 32)) rest)
             with (code_units c ++ remove_spaces rest).
           ++ apply escaped_block; auto.
           ++ unfold code_units. now rewrite (ltb_true c 65536) by lia.
Qed.

(** X11.  What [encodeURI] writes for a string, the decode rule of
    [append] reads back as that string with its spaces deleted; so a
    string without spaces comes back unchanged. *)
Theorem encoded_string_reads_back_without_spaces (str e : jsstring) :
  well_formed str -> encodeURI str = Normal e ->
  decode_value e = Some (remove_spaces str)
  /\ (~ In ch_space str -> decode_value e = Some str).
Proof.
  intros Hwf He. unfold encodeURI in He.
  destruct (encodeURIComponent str) as [e0|] eqn:E; [|discriminate].
  injection He as <-.
  destruct (encoded_decodes_without_spaces str e0 Hwf E) as [[ts [H1 H2]] _].
  assert (Hd : decode_value (replace_matches e0) = Some (remove_spaces str)).
  { unfold decode_value, decodeURIComponent. now rewrite H1. }
  split; [exact Hd|]. intros Hsp. rewrite Hd. f_equal.
  unfold remove_spaces. apply filter_all. apply Forall_forall. intros c Hc.
  destruct (c =? ch_space) eqn:S; auto. bool_lia. now subst.
Qed.

Lemma encoded_string_reads_back_without_spaces_witness :
  encodeURI (js "a b&c=d+e!") = Normal (js "a+b%26c%3Dd%2Be%21")
  /\ decode_value (js "a+b%26c%3Dd%2Be%21") = Some (js "ab&c=d+e!").
Proof.
  split; [reflexivity|].
  apply (encoded_string_reads_back_without_spaces (js "a b&c=d+e!")).
  - repeat constructor.
  - reflexivity.
Defined.


(** *** The separators in the output of [toString] *)

Lemma encoded_safe str :
  well_formed str -> encodable str = true -> Forall safe (encoded str).
Proof.
  unfold encodable, encoded. intros Hwf He.
  destruct (encodeURIComponent str) as [e|] eqn:E; [|discriminate].
  now destruct (encoded_decodes_without_spaces str e Hwf E) as (_ & H & _).
Qed.

Lemma mapM_normal_inv {A B} (f : A -> completion B) (g : A -> B) l ys :
  (forall x y, In x l -> f x = Normal y -> y = g x) ->
  mapM f l = Normal ys -> ys = map g l.
Proof.
  revert ys. induction l as [|x l IH]; intros ys Hf; simpl.
  - now intros [= <-].
  - destruct (f x) as [y|] eqn:E; [|discriminate]. simpl.
    destruct (mapM f l) as [ys'|] eqn:M; [|discriminate]. simpl.
    intros [= <-]. f_equal.
    + apply Hf; auto. now left.
    + apply IH; auto. intros x0 y0 Hin. apply Hf. now right.
Qed.

(** X12.  The output of [toString] is unambiguous: no encoded name or
    value contains [&] or [=], so splitting the output at [&] and each
    piece at [=], as the constructor does, gives back one piece per pair
    of [entries()], holding the encoded name and the encoded value of
    that pair, in order. *)
Theorem toString_splits_back_into_entries
    (this : URLSearch) (s : jsstring) (es : list (jsstring * jsstring)) :
  well_formed_store (secret this) ->
  toString this = Normal s -> entries this = Normal es -> es <> [] ->
  map pair_of (JS.split ch_amp s)
  = map (fun nv => (encoded (fst nv), Str (encoded (snd nv)))) es
  /\ Forall (fun nv => ~ In ch_amp (encoded (fst nv)) /\ ~ In ch_eq (encoded (fst nv))
                       /\ ~ In ch_amp (encoded (snd nv)) /\ ~ In ch_eq (encoded (snd nv)))
            es.
Proof.
  intros Hwf Hs He Hne.
  assert (Henum : enumerable (secret this)).
  { destruct (own (js "hasOwnProperty") (secret this)) eqn:E; [|exact E].
    unfold entries, forEach in He. rewrite for_in_own_shadowed in He; [discriminate|].
    unfold enumerable. congruence. }
  rewrite entries_visited in He by assumption. injection He as <-.
  rewrite toString_visited in Hs by assumption.
  set (seg := fun nv : jsstring * jsstring =>
                bind (encodeURI (fst nv)) (fun n =>
                bind (encodeURI (snd nv)) (fun v =>
                Normal (n ++ js "=" ++ v)))) in Hs.
  destruct (mapM seg (visited (secret this))) as [segs|] eqn:M; [|discriminate].
  simpl in Hs. injection Hs as <-.
  assert (Henc : forall n v, In (n, v) (visited (secret this)) ->
             encodable n = true /\ encodable v = true).
  { assert (Hc : Forall (fun x => completes (seg x)) (visited (secret this))).
    { apply mapM_completes. rewrite M. now eexists. }
    intros n v Hin. rewrite Forall_forall in Hc. destruct (Hc _ Hin) as [y Hy].
    unfold seg in Hy. simpl in Hy. rewrite !encodeURI_encodable in Hy.
    destruct (encodable n); [|discriminate]. simpl in Hy.
    destruct (encodable v); [|discriminate]. auto. }
  assert (Hsafe : forall n v, In (n, v) (visited (secret this)) ->
             Forall safe (encoded n) /\ Forall safe (encoded v)).
  { intros n v Hin. destruct (Henc n v Hin) as [Hn Hv].
    destruct (visited_well_formed _ _ _ Hwf Hin) as [Wn Wv].
    split; now apply encoded_safe. }
  assert (Hsegs : segs = map segment_by_code (visited (secret this))).
  { apply (mapM_normal_inv seg); auto.
    intros [n v] y Hin Hy. destruct (Henc n v Hin) as [Hn Hv].
    unfold seg in Hy. simpl in Hy. rewrite !encodeURI_encodable, Hn, Hv in Hy.
    simpl in Hy. now injection Hy as <-. }
  assert (Hno : forall n v, In (n, v) (visited (secret this)) ->
            ~ In ch_amp (encoded n) /\ ~ In ch_eq (encoded n)
            /\ ~ In ch_amp (encoded v) /\ ~ In ch_eq (encoded v)).
  { intros n v Hin. destruct (Hsafe n v Hin) as [Sn Sv].
    rewrite Forall_forall in Sn, Sv.
    repeat split; intros H;
      [destruct (Sn _ H)|destruct (Sn _ H)|destruct (Sv _ H)|destruct (Sv _ H)];
      congruence. }
  split.
  - rewrite Hsegs. change (js "&") with [ch_amp]. rewrite split_join.
    + rewrite map_map. apply map_ext_in. intros [n v] Hin.
      destruct (Hno n v Hin) as (_ & Hn & _ & Hv).
      unfold segment_by_code. simpl. now apply pair_of_segment.
    + destruct (visited (secret this)); [congruence|discriminate].
    + apply Forall_map. apply Forall_forall. intros [n v] Hin.
      destruct (Hno n v Hin) as (Hn & _ & Hv & _).
      unfold segment_by_code. simpl. intros H.
      apply in_app_or in H. destruct H as [H|[H|H]]; auto. discriminate.
  - apply Forall_forall. intros [n v] Hin. simpl. now apply Hno.
Qed.

Lemma toString_splits_back_into_entries_witness :
  let c := set (js "a&b") (PString (js "x=y z"))
               (set (js "c") (PString (js "1")) empty) in
  toString c = Normal (js "c=1&a%26b=x%3Dy+z")
  /\ map pair_of (JS.split ch_amp (js "c=1&a%26b=x%3Dy+z"))
     = [(js "c", Str (js "1")); (js "a%26b", Str (js "x%3Dy+z"))].
Proof.
  split; [reflexivity|].
  destruct (toString_splits_back_into_entries
              (set (js "a&b") (PString (js "x=y z"))
                   (set (js "c") (PString (js "1")) empty))
              (js "c=1&a%26b=x%3Dy+z")
              [(js "c", js "1"); (js "a&b", js "x=y z")]) as [H _].
  - repeat constructor.
  - reflexivity.
  - reflexivity.
  - discriminate.
  - exact H.
Defined.

(** *** The second [=] of a pair *)

(** X13.  The constructor splits a pair at every [=] and keeps the
    first two pieces: whatever follows a second [=] in a pair is
    dropped, the second [=] included. *)
Theorem constructor_drops_after_second_equals (n v rest : jsstring) :
  ~ In ch_eq n -> ~ In ch_eq v ->
  ~ In ch_amp (n ++ v ++ rest) ->
  hd_error n <> Some ch_question ->
  pair_of (n ++ ch_eq :: v ++ ch_eq :: rest) = (n, Str v)
  /\ constructor (QString (n ++ ch_eq :: v ++ ch_eq :: rest))
     = constructor (QString (n ++ ch_eq :: v)).
Proof.
  intros Hn Hv Hamp Hq.
  assert (Hp : pair_of (n ++ ch_eq :: v ++ ch_eq :: rest) = (n, Str v)).
  { unfold pair_of. now rewrite !split_app by assumption. }
  assert (Hp' : pair_of (n ++ ch_eq :: v) = (n, Str v)).
  { unfold pair_of. now rewrite split_app, split_none by assumption. }
  split; [exact Hp|].
  assert (Hstrip : forall t, strip_question (n ++ ch_eq :: t) = n ++ ch_eq :: t).
  { intros t. destruct n as [|c n]; [reflexivity|]. simpl.
    destruct (c =? ch_question) eqn:E; auto.
    apply N.eqb_eq in E. subst c. now elim Hq. }
  assert (A1 : ~ In ch_amp (n ++ ch_eq :: v)).
  { intros H. apply Hamp. rewrite !in_app_iff in *. simpl in H.
    unfold ch_eq, ch_amp in *. intuition congruence. }
  assert (A2 : ~ In ch_amp (n ++ ch_eq :: v ++ ch_eq :: rest)).
  { intros H. apply Hamp. rewrite !in_app_iff in *. simpl in H.
    rewrite in_app_iff in H. simpl in H.
    unfold ch_eq, ch_amp in *. intuition congruence. }
  unfold constructor. rewrite !Hstrip.
  rewrite (split_none _ _ A1), (split_none _ _ A2).
  simpl map. now rewrite Hp, Hp'.
Qed.

Lemma constructor_drops_after_second_equals_witness :
  parse "a=b=c" = parse "a=b"
  /\ bind (parse "a=b=c") (fun c => Normal (get (js "a") c))
     = Normal (StringValue (js "b")).
Proof.
  split; [|reflexivity].
  apply (constructor_drops_after_second_equals (js "a") (js "b") (js "c"));
    vm_compute; intuition discriminate.
Defined.


(** *** A query string, pair by pair *)

Lemma split_not_nil sep a : JS.split sep a <> [].
Proof.
  destruct a as [|c a]; simpl; [discriminate|].
  destruct (c =? sep); [discriminate|].
  destruct (JS.split sep a); discriminate.
Qed.

Lemma split_at_separator sep a b :
  JS.split sep (a ++ sep :: b) = JS.split sep a ++ JS.split sep b.
Proof.
  induction a as [|c a IH]; simpl.
  - now rewrite N.eqb_refl.
  - destruct (c =? sep); [now rewrite IH|].
    rewrite IH. pose proof (split_not_nil sep a) as Hne.
    destruct (JS.split sep a); [congruence|reflexivity].
Qed.

Lemma append_each_app l1 l2 this :
  append_each (l1 ++ l2) this = bind (append_each l1 this) (append_each l2).
Proof.
  revert this. induction l1 as [|[n values] l1 IH]; intros this; simpl; auto.
  destruct (append n values this) as [this' [r|e]]; simpl; auto.
Qed.

(** X14.  The constructor reads a query string pair by pair, from left
    to right: constructing from [q1&q2] is constructing from [q1] and
    then appending the pairs of [q2], and it raises as soon as a pair
    does. *)
Theorem constructor_reads_pair_by_pair :
  (forall q1 q2,
     constructor (QString (q1 ++ ch_amp :: q2))
     = bind (constructor (QString q1))
            (append_each (map pair_of (JS.split ch_amp q2))))
  /\ (forall q1 n v,
        ~ In ch_amp (n ++ v) -> ~ In ch_eq (n ++ v) ->
        constructor (QString (q1 ++ ch_amp :: n ++ ch_eq :: v))
        = bind (constructor (QString q1))
               (fun c => match append n (Str v) c with
                         | (c', Normal _) => Normal c'
                         | (_, Throw e) => Throw e
                         end)).
Proof.
  assert (H : forall q1 q2,
            constructor (QString (q1 ++ ch_amp :: q2))
            = bind (constructor (QString q1))
                   (append_each (map pair_of (JS.split ch_amp q2)))).
  { intros q1 q2. unfold constructor.
    assert (Hs : strip_question (q1 ++ ch_amp :: q2)
                 = strip_question q1 ++ ch_amp :: q2).
    { destruct q1 as [|c q1]; [reflexivity|]. simpl.
      now destruct (c =? ch_question). }
    now rewrite Hs, split_at_separator, map_app, append_each_app. }
  split; [exact H|].
  intros q1 n v Hamp Heq. rewrite H.
  rewrite split_none.
  - simpl map. rewrite in_app_iff in Heq.
    change (n ++ ch_eq :: v) with (n ++ js "=" ++ v).
    rewrite pair_of_segment by tauto.
    destruct (constructor (QString q1)) as [c|e]; simpl; auto.
  - intros Hin. apply Hamp. rewrite in_app_iff in *. simpl in Hin.
    unfold ch_eq, ch_amp in *. intuition congruence.
Qed.

Lemma constructor_reads_pair_by_pair_witness :
  constructor (QString (js "a=1&b=2&a=3" ++ ch_amp :: js "b" ++ ch_eq :: js "%34"))
  = Normal (mk [(js "a", [js "1"; js "3"]); (js "b", [js "2"; js "4"])]
               ObjectPrototype).
Proof.
  rewrite (proj2 constructor_reads_pair_by_pair (js "a=1&b=2&a=3") (js "b") (js "%34")).
  - reflexivity.
  - simpl. unfold ch_amp. intuition discriminate.
  - simpl. unfold ch_eq. intuition discriminate.
Defined.

(** *** [encodeURI] on ASCII *)

Lemma reencode_unescaped c :
  uri_unescaped c = true -> reencode c = encode_ascii c.
Proof.
  intros U. unfold encode_ascii. destruct (stable_char c) eqn:St.
  - apply stable_char_cases in St. apply reencode_other.
    rewrite !eqb_false_lia by lia. reflexivity.
  - apply uri_unescaped_cases in U.
    assert (Hns : ~ (48 <= c <= 57 \/ 65 <= c <= 90 \/ 97 <= c <= 122
                     \/ c = 45 \/ c = 95 \/ c = 46 \/ c = 42)).
    { intros H. unfold stable_char, alnum, in_range in St.
      destruct H as [H|[H|[H|[H|[H|[H|H]]]]]]; bool_lia. }
    assert (Hc : c = 33 \/ c = 126 \/ c = 39 \/ c = 40 \/ c = 41) by lia.
    destruct Hc as [->|[->|[->|[->| ->]]]]; reflexivity.
Qed.

Lemma encodeURIComponent_ascii s :
  Forall (fun c => c < 128) s ->
  exists e, encodeURIComponent s = Some e
            /\ replace_matches e = flat_map encode_ascii s.
Proof.
  induction 1 as [|c s Hc Hs IH]; [now exists []|].
  destruct IH as [e [He Hr]].
  rewrite encodeURIComponent_unfold, He.
  destruct (uri_unescaped c) eqn:U.
  - eexists. split; [reflexivity|].
    rewrite replace_matches_other by now apply uri_unescaped_not_percent.
    simpl. now rewrite Hr, reencode_unescaped.
  - rewrite !in_range_false by lia. eexists. split; [reflexivity|].
    unfold escape, utf8_encode. rewrite (ltb_true c 128) by assumption.
    rewrite (replace_matches_octets [c]) by (repeat constructor; lia).
    simpl. rewrite Hr, app_nil_r. f_equal. unfold encode_ascii.
    destruct (stable_char c) eqn:St; auto.
    apply stable_char_unescaped in St. congruence.
Qed.

(** X15.  On a string of ASCII characters [encodeURI] never raises and
    works character by character: letters, digits and [- _ . *] are
    kept, a space becomes [+], NUL stays NUL, and every other character
    becomes its escape [%XX] with upper-case digits. *)
Theorem encodeURI_on_ascii (str : jsstring) :
  Forall (fun c => c < 128) str ->
  encodeURI str = Normal (flat_map encode_ascii str).
Proof.
  intros H. destruct (encodeURIComponent_ascii str H) as [e [He Hr]].
  unfold encodeURI. rewrite He. simpl. now rewrite Hr.
Qed.

Lemma encodeURI_on_ascii_witness :
  encodeURI (js "Az09-_.* !'()~&=+%/?#")
  = Normal (js "Az09-_.*+%21%27%28%29%7E%26%3D%2B%25%2F%3F%23").
Proof.
  rewrite (encodeURI_on_ascii (js "Az09-_.* !'()~&=+%/?#")).
  - reflexivity.
  - repeat constructor.
Defined.

(** *** The name [__proto__] *)

(** The loop over the store does not depend on its prototype. *)
Lemma for_in_own_prototype {A} o p q
    (body : A -> jsstring -> list jsstring -> completion A) a :
  for_in_own o p body a = for_in_own o q body a.
Proof.
  destruct (own (js "hasOwnProperty") o) eqn:E.
  - rewrite !for_in_own_shadowed; auto; unfold enumerable; congruence.
  - now rewrite !for_in_own_enumerable by exact E.
Qed.

(** X17.  [set('__proto__', v)] stores nothing: the array [['' + v]]
    becomes the prototype of the store.  The own properties, and with
    them [keys()], [entries()], [values()] and [toString()], stay as they
    are, but the look-ups reach into the array: for the name ['0'], when
    it is not stored, [has] is true, [getAll] returns the string
    ['' + v] itself instead of an array, [get] returns its first
    character, and [append] of a value raises a [TypeError] once the
    first value is decoded, unless ['' + v] is empty.  [sort()] puts a
    fresh object in place of the store, so the array is forgotten. *)
Theorem set_proto_replaces_prototype (v : primitive) (this : URLSearch) :
  own proto_name (secret this) = None ->
  secret (set proto_name v this) = secret this
  /\ secret_prototype (set proto_name v this) = ArrayInstance [ToString v]
  /\ (keys (set proto_name v this) = keys this
      /\ entries (set proto_name v this) = entries this
      /\ values (set proto_name v this) = values this
      /\ toString (set proto_name v this) = toString this)
  /\ (own (js "0") (secret this) = None ->
      has (js "0") (set proto_name v this) = true
      /\ getAll (js "0") (set proto_name v this) = Normal (Str (ToString v))
      /\ get (js "0") (set proto_name v this)
         = match ToString v with
           | [] => Undef
           | ch :: _ => StringValue [ch]
           end
      /\ (ToString v <> [] ->
          forall val vals d,
            decode_value val = Some d ->
            append (js "0") (Arr (val :: vals)) (set proto_name v this)
            = (set proto_name v this, Throw TypeError)))
  /\ (forall sorted,
        sort (set proto_name v this) = Normal sorted ->
        secret_prototype sorted = ObjectPrototype
        /\ (own (js "0") (secret this) = None -> has (js "0") sorted = false)).
Proof.
  intros Hp. unfold set. rewrite secret_assign_proto by assumption.
  set (c := mk (secret this) (ArrayInstance [ToString v])).
  split; [reflexivity|]. split; [reflexivity|]. split; [|split].
  - unfold toString, entries, values, forEach, keys, c. simpl.
    now rewrite !(for_in_own_prototype (secret this) (ArrayInstance [ToString v])
                    (secret_prototype this)).
  - intros H0.
    assert (Hat : secret_at (js "0") c = Element (ToString v)).
    { unfold secret_at, lookup, c. simpl secret. now rewrite H0. }
    assert (Hhas : has (js "0") c = true).
    { unfold has, has_property. fold (secret_at (js "0") c). now rewrite Hat. }
    split; [exact Hhas|]. unfold get, getAll. rewrite Hhas, Hat.
    split; [reflexivity|]. split; [now destruct (ToString v)|].
    intros Hne val vals d Hd. unfold append. cbn [is_empty falsy orb as_array].
    rewrite Hat. destruct (ToString v) as [|ch x] eqn:T; [congruence|].
    cbn [falsy_member push_all]. now rewrite Hat, Hd.
  - intros sorted Hs.
    assert (Henum : enumerable (secret c)).
    { unfold sort in Hs. destruct (keys c) as [ks|] eqn:K; [|discriminate].
      now destruct (keys_normal _ _ K). }
    rewrite sort_secret in Hs by assumption. injection Hs as <-.
    split; [reflexivity|]. intros H0. unfold has. simpl. rewrite has_object.
    rewrite (sort_loop_own (fun key => array_sort (stored key c))).
    + reflexivity.
    + rewrite sorted_keys_In. simpl. congruence.
Qed.

Lemma set_proto_replaces_prototype_witness :
  exists c,
    bind (parse "a=1") (fun c => Normal (set proto_name (PString (js "xy")) c))
    = Normal c
    /\ keys c = Normal [js "a"]
    /\ has (js "0") c = true
    /\ getAll (js "0") c = Normal (Str (js "xy"))
    /\ get (js "0") c = StringValue (js "x")
    /\ append (js "0") (Arr [js "v"]) c = (c, Throw TypeError).
Proof.
  exists (set proto_name (PString (js "xy")) (mk [(js "a", [js "1"])] ObjectPrototype)).
  split; [reflexivity|].
  destruct (set_proto_replaces_prototype (PString (js "xy"))
              (mk [(js "a", [js "1"])] ObjectPrototype) eq_refl)
    as (_ & _ & (Hk & _) & H0 & _).
  destruct (H0 eq_refl) as (Hh & Hg & Hf & Ha).
  split; [rewrite Hk; reflexivity|]. split; [exact Hh|]. split; [exact Hg|].
  split; [exact Hf|].
  apply (Ha ltac:(discriminate) (js "v") [] (js "v")). reflexivity.
Defined.

End Properties.
